(** * Tic-tac-toe component: the game logic of [tic-tac-toe.tsx]

    A shallow embedding of the state, the evaluator [checkWinner], the move
    handler [makeMove], the heuristic opponent ([makeAIMove], [getBestMove])
    and the reset handlers of the React component, followed by the
    properties the specification states about them.

    The component keeps one [GameState] in a React state cell.  A handler
    reads the state of the render it was created in (the closure variable
    [gameState]) and hands [setGameState] an updater that React applies to
    the state current at that moment ([prev]).  The embedding keeps the two
    apart: a handler is a function of [gameState] that yields the updater it
    queues, if any. *)

From stdpp Require Import base decidable option list strings sorting.
From Stdlib Require Import Arith Lia.

(** ** Data model *)

(** [type Player = "X" | "O" | null].  At run time a board read past the end
    of the array (or of a hole left by a write past the end) yields
    [undefined]; it is the fourth value, so that reads are total as in
    JavaScript. *)
Inductive Player : Set := X | O | null | undefined.

#[global] Instance Player_eq_dec : EqDecision Player.
Proof. solve_decision. Defined.

(** [type GameMode = "pvp" | "ai"] *)
Inductive GameMode : Set := pvp | ai.

#[global] Instance GameMode_eq_dec : EqDecision GameMode.
Proof. solve_decision. Defined.

(** [Player | "tie"], the type of the [winner] field and of the result of
    [checkWinner]. *)
Inductive Winner : Set := player (p : Player) | tie.

Coercion player : Player >-> Winner.

#[global] Instance Winner_eq_dec : EqDecision Winner.
Proof. solve_decision. Defined.

(** [scores: { X: number; O: number; ties: number }].  The counters start
    at 0 and only ever receive [+ 1]; they are embedded as unbounded
    naturals. *)
Record Scores : Set := mkScores { scoreX : nat; scoreO : nat; ties : nat }.

#[global] Instance Scores_eq_dec : EqDecision Scores.
Proof. solve_decision. Defined.

Abbreviation Board := (list Player).

Record GameState : Set := mkGameState {
  board : Board;
  currentPlayer : Player;
  winner : Winner;
  gameMode : GameMode;
  scores : Scores
}.

#[global] Instance GameState_eq_dec : EqDecision GameState.
Proof. solve_decision. Defined.

(** JavaScript truthiness of a cell and of a [winner] value: the strings are
    truthy, [null] and [undefined] are not. *)
Definition truthy (p : Player) : bool :=
  match p with X | O => true | null | undefined => false end.

Definition truthyW (w : Winner) : bool :=
  match w with player p => truthy p | tie => true end.

(** [board[i]] *)
Definition cell (board : Board) (i : nat) : Player :=
  default undefined (board !! i).

(** [board[index] = v] on a copy of the array.  Inside the array the slot is
    replaced; past the end JavaScript grows the array, and the slots in
    between are holes, which every operation of this component ([every],
    [map], [filter], indexing, spreading) treats as it treats [undefined]. *)
Definition assign (board : Board) (index : nat) (v : Player) : Board :=
  if decide (index < length board) then <[index := v]> board
  else board ++ replicate (index - length board) undefined ++ [v].

(** [Array(9).fill(null)] *)
Definition emptyBoard : Board := replicate 9 null.

Definition WINNING_COMBINATIONS : list (nat * nat * nat) :=
  [ (0, 1, 2); (3, 4, 5); (6, 7, 8);   (* Rows *)
    (0, 3, 6); (1, 4, 7); (2, 5, 8);   (* Columns *)
    (0, 4, 8); (2, 4, 6) ].            (* Diagonals *)

(** The state [useState] starts from. *)
Definition initialState : GameState :=
  {| board := emptyBoard; currentPlayer := X; winner := null;
     gameMode := pvp; scores := mkScores 0 0 0 |}.

(** ** The evaluator *)

(** The [for ... of WINNING_COMBINATIONS] loop of [checkWinner]: [Some p]
    when the loop returns [p] from inside, [None] when it runs to its end. *)
Fixpoint scanLines (board : Board) (combos : list (nat * nat * nat))
  : option Player :=
  match combos with
  | [] => None
  | (a, b, c) :: rest =>
      if truthy (cell board a)
         && bool_decide (cell board a = cell board b)
         && bool_decide (cell board a = cell board c)
      then Some (cell board a)
      else scanLines board rest
  end.

Definition checkWinner (board : Board) : Winner :=
  match scanLines board WINNING_COMBINATIONS with
  | Some p => player p
  | None =>
      if forallb (fun c => negb (bool_decide (c = null))) board
      then tie
      else player null
  end.

(** ** The move handler *)

(** [{ ...scores, [key]: scores[key] + 1 }] with
    [key = winner === "tie" ? "ties" : winner].  The handler builds it only
    for a truthy [winner], so the key is one of the three counters; for the
    other two values the object would gain a property that nothing reads,
    and the three counters stay as they are. *)
Definition bump (w : Winner) (s : Scores) : Scores :=
  match w with
  | tie => {| scoreX := scoreX s; scoreO := scoreO s; ties := ties s + 1 |}
  | player X => {| scoreX := scoreX s + 1; scoreO := scoreO s; ties := ties s |}
  | player O => {| scoreX := scoreX s; scoreO := scoreO s + 1; ties := ties s |}
  | player _ => s
  end.

(** [makeMove(index)] in a render whose state is [gameState]: [None] when it
    returns at its guard, otherwise the updater passed to [setGameState]. *)
Definition makeMove (gameState : GameState) (index : nat)
  : option (GameState -> GameState) :=
  if truthy (cell (board gameState) index) || truthyW (winner gameState)
  then None
  else
    let newBoard := assign (board gameState) index (currentPlayer gameState) in
    let winner := checkWinner newBoard in
    let nextPlayer :=
      if bool_decide (currentPlayer gameState = X) then O else X in
    Some (fun prev =>
      {| board := newBoard;
         currentPlayer := if truthyW winner then currentPlayer prev
                          else nextPlayer;
         winner := winner;
         gameMode := gameMode prev;
         scores := if truthyW winner then bump winner (scores prev)
                   else scores prev |}).

(** [setGameState] with the outcome of a handler: the queued updater, if
    any, is applied to the current state. *)
Definition setGameState (upd : option (GameState -> GameState))
  (prev : GameState) : GameState :=
  match upd with Some f => f prev | None => prev end.

(** A click on cell [index]: [makeMove] of the current render, and the
    state after React has applied what it queued. *)
Definition onClick (s : GameState) (index : nat) : GameState :=
  setGameState (makeMove s index) s.

(** ** The reset handlers *)

Definition resetGame (prev : GameState) : GameState :=
  {| board := emptyBoard; currentPlayer := X; winner := null;
     gameMode := gameMode prev; scores := scores prev |}.

Definition resetScores (prev : GameState) : GameState :=
  {| board := board prev; currentPlayer := currentPlayer prev;
     winner := winner prev; gameMode := gameMode prev;
     scores := mkScores 0 0 0 |}.

Definition switchGameMode (mode : GameMode) (prev : GameState) : GameState :=
  {| board := emptyBoard; currentPlayer := X; winner := null;
     gameMode := mode; scores := scores prev |}.

(** ** The heuristic opponent *)

(** [Math.random()]: a number in the interval from 0 (included) to 1
    (excluded), embedded as the fraction [num / den]. *)
Record Draw : Set := mkDraw { num : nat; den : nat; draw_lt : num < den }.

(** [Math.floor(random * n)] *)
Definition floorMul (random : Draw) (n : nat) : nat :=
  (num random * n) / den random.

(** [board.map((cell, index) => cell === null ? index : null)
         .filter((index) => index !== null)] *)
Definition availableMoves (board : Board) : list nat :=
  omap id
    (imap (fun index c => if bool_decide (c = null) then Some index else None)
          board).

(** [availableMoves.includes(i)] *)
Definition includes (l : list nat) (i : nat) : bool := bool_decide (i ∈ l).

(** The test of the two [for ... of availableMoves] loops: does [mark] at
    [move] make [checkWinner] answer [mark]? *)
Definition completes (board : Board) (mark : Player) (move : nat) : bool :=
  bool_decide (checkWinner (assign board move mark) = player mark).

(** [getBestMove()], a closure over [gameState] and [availableMoves].  Its
    last two branches read an array at a drawn position; the read is a
    lookup, [None] standing for the [undefined] of a read past the end. *)
Definition getBestMove (gameState : GameState) (availableMoves : list nat)
  (random : Draw) : option nat :=
  (* Try to win *)
  match find (completes (board gameState) O) availableMoves with
  | Some move => Some move
  | None =>
  (* Try to block player from winning *)
  match find (completes (board gameState) X) availableMoves with
  | Some move => Some move
  | None =>
  (* Take center if available *)
  if includes availableMoves 4 then Some 4
  else
    (* Take corners *)
    let corners := filter (fun i => i ∈ availableMoves) [0; 2; 6; 8] in
    if decide (0 < length corners)
    then corners !! floorMul random (length corners)
    else (* Random move *)
      availableMoves !! floorMul random (length availableMoves)
  end end.

(** The callback handed to [setTimeout]: given the draw it will make, the
    updater it queues (if [makeMove] does not return at its guard). *)
Definition Callback : Type := Draw -> option (GameState -> GameState).

(** [makeAIMove()] in a render whose state is [gameState]: [None] when it
    returns at one of its guards, otherwise the callback it schedules.  The
    callback runs [getBestMove] and [makeMove] of the same render.  Past the
    second guard [getBestMove] never returns [undefined]
    (see [getBestMove_available]), so the bind below loses nothing. *)
Definition makeAIMove (gameState : GameState) : option Callback :=
  if truthyW (winner gameState) || bool_decide (currentPlayer gameState = X)
  then None
  else
    let availableMoves := availableMoves (board gameState) in
    if bool_decide (length availableMoves = 0) then None
    else Some (fun random =>
      aiMove ← getBestMove gameState availableMoves random;
      makeMove gameState aiMove).

(** The body of the [useEffect]. *)
Definition aiEffect (gameState : GameState) : option Callback :=
  if bool_decide (gameMode gameState = ai)
     && bool_decide (currentPlayer gameState = O)
     && negb (truthyW (winner gameState))
  then makeAIMove gameState
  else None.

(** The dependency array of the effect. *)
Definition deps (s : GameState) : Player * GameMode * Winner :=
  (currentPlayer s, gameMode s, winner s).

(** ** The component as a transition system *)

(** What the component holds between two events: the React state and the
    timeouts not yet fired, oldest first (they all have the same delay). *)
Record World : Type := mkWorld {
  current : GameState;
  timeouts : list Callback
}.

(** The render that follows a state change: the effect runs when one of its
    dependencies changed, and may schedule a callback. *)
Definition render (pending : list Callback) (old new : GameState) : World :=
  {| current := new;
     timeouts :=
       pending ++
       (if bool_decide (deps new = deps old) then []
        else option_list (aiEffect new)) |}.

Inductive Event : Set :=
| Click (index : nat)          (* a board button *)
| NewGame                      (* the New Game button *)
| ResetScores                  (* the Reset Scores button *)
| SwitchMode (mode : GameMode) (* one of the two mode buttons *)
| Timeout (random : Draw).     (* the oldest timeout fires *)

Definition step (w : World) (e : Event) : World :=
  let s := current w in
  match e with
  | Click index => render (timeouts w) s (onClick s index)
  | NewGame => render (timeouts w) s (resetGame s)
  | ResetScores => render (timeouts w) s (resetScores s)
  | SwitchMode mode => render (timeouts w) s (switchGameMode mode s)
  | Timeout random =>
      match timeouts w with
      | [] => w
      | callback :: rest => render rest s (setGameState (callback random) s)
      end
  end.

(** The first render: the effect runs once, on the initial state. *)
Definition initialWorld : World :=
  {| current := initialState; timeouts := option_list (aiEffect initialState) |}.

Definition run (w : World) (events : list Event) : World :=
  foldl step w events.

Inductive reachable : World -> Prop :=
| reachable_init : reachable initialWorld
| reachable_step w e : reachable w -> reachable (step w e).

(** ** The presentation helpers *)

(** What a template literal prints for a [Player] value. *)
Definition playerString (p : Player) : string :=
  match p with
  | X => "X" | O => "O" | null => "null" | undefined => "undefined"
  end.

(** [getPlayerName(player)] *)
Definition getPlayerName (gameState : GameState) (player : Player) : string :=
  if negb (truthy player) then EmptyString
  else if bool_decide (gameMode gameState = ai)
       then (if bool_decide (player = X) then "Player" else "AI")
       else "Player " +:+ playerString player.

Definition baseStyle : string :=
  "w-20 h-20 text-3xl font-bold border-2 border-gray-300 hover:bg-gray-50 transition-colors duration-200 flex items-center justify-center cursor-pointer".

(** [getCellStyle(index)] *)
Definition getCellStyle (gameState : GameState) (index : nat) : string :=
  if bool_decide (cell (board gameState) index = X)
  then baseStyle +:+ " text-blue-600 bg-blue-50"
  else if bool_decide (cell (board gameState) index = O)
  then baseStyle +:+ " text-red-600 bg-red-50"
  else if truthyW (winner gameState)
  then baseStyle +:+ " cursor-not-allowed opacity-50"
  else baseStyle.

(** The [disabled] attribute of the button of cell [index]:
    [!!cell || !!gameState.winner]. *)
Definition disabled (gameState : GameState) (index : nat) : bool :=
  truthy (cell (board gameState) index) || truthyW (winner gameState).

(** ** Vocabulary of the specification *)

(** The two marks. *)
Definition is_mark (m : Player) : Prop := m = X \/ m = O.

#[global] Instance is_mark_dec m : Decision (is_mark m).
Proof. unfold is_mark. apply _. Defined.

(** A board as the specification has it: nine cells, each a mark or
    empty ([null]). *)
Definition board9 (board : Board) : Prop :=
  length board = 9 /\ Forall (fun c => c <> undefined) board.

(** The three cells of the triple [t] all carry [m]. *)
Definition holds (board : Board) (m : Player) (t : nat * nat * nat) : Prop :=
  let '(a, b, c) := t in
  cell board a = m /\ cell board b = m /\ cell board c = m.

#[global] Instance holds_dec board m t : Decision (holds board m t).
Proof. destruct t as [[a b] c]. unfold holds. apply _. Defined.

(** No mark fills the triple [t]. *)
Definition unowned (board : Board) (t : nat * nat * nat) : Prop :=
  forall m, is_mark m -> ~ holds board m t.

(** Some winning triple is filled by [m]. *)
Definition owns (board : Board) (m : Player) : Prop :=
  exists t, t ∈ WINNING_COMBINATIONS /\ holds board m t.

(** The first filled triple, in the order of [WINNING_COMBINATIONS], is
    filled by [m]. *)
Definition first_owner (board : Board) (m : Player) : Prop :=
  exists before t after,
    WINNING_COMBINATIONS = before ++ t :: after /\
    holds board m t /\ Forall (unowned board) before.

(** Every one of the nine cells carries a mark. *)
Definition full (board : Board) : Prop :=
  forall i, i < 9 -> is_mark (cell board i).

(** The evaluator as the specification words it: the winner is the mark
    that fills a triple; failing that, a tie is a full board; failing that,
    the game goes on. *)
Definition evaluator_spec (board : Board) : Prop :=
  (forall m, is_mark m -> (checkWinner board = player m <-> owns board m)) /\
  ((forall m, is_mark m -> ~ owns board m) ->
     (checkWinner board = tie <-> full board)) /\
  ((forall m, is_mark m -> ~ owns board m) -> ~ full board ->
     checkWinner board = player null).

(** The recorded outcome is final: a mark has won or the game is tied. *)
Definition terminal (w : Winner) : Prop :=
  w = player X \/ w = player O \/ w = tie.

#[global] Instance terminal_dec w : Decision (terminal w).
Proof. unfold terminal. apply _. Defined.

(** Every click of the sequence is accepted and leaves the game going. *)
Fixpoint quiet (s : GameState) (indices : list nat) : Prop :=
  match indices with
  | [] => True
  | index :: rest =>
      makeMove s index <> None /\
      winner (onClick s index) = player null /\
      quiet (onClick s index) rest
  end.

(** The entry [availableMoves] computes for a cell, with indices counted
    from [k]; [availableMoves] itself counts from 0. *)
Definition freeAt (k index : nat) (c : Player) : option nat :=
  if bool_decide (c = null) then Some (k + index) else None.

(** [move] is the first legal move, in ascending order, that passes [test]. *)
Definition first_legal (board : Board) (test : nat -> bool) (move : nat)
  : Prop :=
  move ∈ availableMoves board /\ test move = true /\
  forall move', move' ∈ availableMoves board -> move' < move ->
    test move' = false.

(** No legal move passes [test]. *)
Definition none_legal (board : Board) (test : nat -> bool) : Prop :=
  forall move, move ∈ availableMoves board -> test move = false.

(** A callback is one that the effect has scheduled for some render. *)
Definition scheduled (callback : Callback) : Prop :=
  exists gameState, aiEffect gameState = Some callback.

(** The empty corners, as [getBestMove] lists them. *)
Definition emptyCorners (board : Board) : list nat :=
  filter (fun i => i ∈ availableMoves board) [0; 2; 6; 8].

(** ** Vocabulary of the further properties *)

(** The recorded outcome is the evaluator's answer on the recorded board. *)
Definition consistent (s : GameState) : Prop :=
  winner s = checkWinner (board s).

(** X and O do not both fill a winning triple. *)
Definition single_owner (board : Board) : Prop :=
  ~ (owns board X /\ owns board O).

(** What every state of the component satisfies. *)
Definition sound (s : GameState) : Prop :=
  consistent s /\ is_mark (currentPlayer s) /\ single_owner (board s).

(** A callback that the effect has scheduled in a render whose state
    satisfies [P]. *)
Definition pending_from (P : GameState -> Prop) (callback : Callback) : Prop :=
  exists gameState, P gameState /\ aiEffect gameState = Some callback.

(** The clicks of a session are on the nine buttons. *)
Definition on_board (e : Event) : Prop :=
  match e with Click index => index < 9 | _ => True end.

(** The event does not select the game against the opponent. *)
Definition keeps_pvp (e : Event) : Prop := e <> SwitchMode ai.

(** The games counted so far. *)
Definition total (sc : Scores) : nat := scoreX sc + scoreO sc + ties sc.

(** The number of callbacks an event can add to the waiting ones. *)
Definition mayAdd (e : Event) : nat :=
  match e with Click _ => 1 | _ => 0 end.

(** The number of cells that carry [m]. *)
Definition countMark (m : Player) (board : Board) : nat :=
  length (filter (fun c => c = m) board).

(** X has as many marks as O, or one more; while the game goes on, the
    first case is X's turn and the second O's. *)
Definition balanced (s : GameState) : Prop :=
  let nX := countMark X (board s) in
  let nO := countMark O (board s) in
  (nX = nO \/ nX = nO + 1) /\
  (~ terminal (winner s) ->
     (currentPlayer s = X /\ nX = nO) \/
     (currentPlayer s = O /\ nX = nO + 1)).

(** ** Sample boards and states *)

(** The two boards of the specification's priority examples. *)
Definition winOrBlock : Board := [O; O; null; X; X; null; null; null; null].
Definition blockOrCenter : Board :=
  [X; X; null; O; null; null; null; null; null].

(** A game against the opponent in which New Game is pressed while the
    opponent's reply to X at 0 is still waiting for its timeout; the same
    with a switch to two players in place of New Game. *)
Definition resetWhileWaiting : list Event :=
  [SwitchMode ai; Click 0; NewGame].

Definition switchWhileWaiting : list Event :=
  [SwitchMode ai; Click 0; SwitchMode pvp].

(** Two players' worth of quick clicks against the opponent: X wins on the
    top row before the timeout of the opponent's first reply has fired. *)
Definition winWhileWaiting : list Event :=
  [SwitchMode ai; Click 0; Click 3; Click 1; Click 4; Click 2].

(** The two games of the specification's end-to-end scenarios. *)
Definition topRowGame : list nat := [0; 4; 1; 7; 2].
Definition tiedGame : list nat := [0; 1; 2; 4; 3; 5; 7; 6; 8].

(** The top row is X and the middle row is O. *)
Definition twoLines : Board := [X; X; X; O; O; O; null; null; null].

(** The top row is X; O has two cells of the middle row. *)
Definition topRowX : Board := [X; X; X; O; O; null; null; null; null].

(** The first game after X has played cell 0. *)
Definition afterX0 : GameState := onClick initialState 0.


(** A game against the opponent, O to move on board [b]. *)
Definition aiToMove (b : Board) : GameState :=
  {| board := b; currentPlayer := O; winner := null; gameMode := ai;
     scores := mkScores 0 0 0 |}.

(** The draws 0 and 3/4. *)
Definition firstDraw : Draw := mkDraw 0 1 (le_n 1).
Definition lastDraw : Draw := mkDraw 3 4 (le_n 4).

(** Centre and corners taken: only the edges are legal. *)
Definition edgesOnly : Board := [X; null; O; null; X; null; O; null; X].

(** ** The priority order, in the words of the specification *)

(** Placing [mark] on [move] makes the evaluator answer that [mark] has
    won. *)
Definition wins_with (board : Board) (mark : Player) (move : nat) : Prop :=
  checkWinner (assign board move mark) = player mark.

(** [move] is the first empty cell, in ascending order, for which [P]
    holds. *)
Definition first_empty (board : Board) (P : nat -> Prop) (move : nat) : Prop :=
  cell board move = null /\ P move /\
  forall move', move' < move -> cell board move' = null -> ~ P move'.

(** [P] holds for no empty cell. *)
Definition no_empty (board : Board) (P : nat -> Prop) : Prop :=
  forall move, cell board move = null -> ~ P move.

(** The moves the priority order allows on [board]: the first empty cell
    that wins for O; failing any, the first empty cell that would win for
    X; failing any, the centre when it is empty; failing that, any empty
    corner; failing any, any empty cell. *)
Definition priority_choice (board : Board) (move : nat) : Prop :=
  first_empty board (wins_with board O) move \/
  no_empty board (wins_with board O) /\
  (first_empty board (wins_with board X) move \/
   no_empty board (wins_with board X) /\
   (cell board 4 = null /\ move = 4 \/
    cell board 4 <> null /\
    (move ∈ [0; 2; 6; 8] /\ cell board move = null \/
     (forall c, c ∈ [0; 2; 6; 8] -> cell board c <> null) /\
     cell board move = null))).

(** Only X at 0 on the board. *)
Definition centreOpen : Board :=
  [X; null; null; null; null; null; null; null; null].

(** A game against the opponent up to X's third move: X at 0, the reply at
    4, X at 1, the reply at 2, X at 3.  The reply to X's third move is
    waiting for its timeout. *)
Definition thirdReplyWaiting : list Event :=
  [SwitchMode ai; Click 0; Timeout firstDraw; Click 1; Timeout firstDraw;
   Click 3].

(** While that reply waits, a click plays O at 6 and wins the game on the
    diagonal 2, 4, 6. *)
Definition overWhileWaiting : list Event := thirdReplyWaiting ++ [Click 6].

(** While that reply waits, a click plays O at 5; the game goes on, X to
    move. *)
Definition movedWhileWaiting : list Event := thirdReplyWaiting ++ [Click 5].

(** ** Sample sessions of the further properties *)

(** The clicks of the top-row game, as events. *)
Definition topRowSession : list Event := Click <$> topRowGame.

(** A game against the opponent: X at 0, the reply, X at 1. *)
Definition replySession : list Event :=
  [SwitchMode ai; Click 0; Timeout firstDraw; Click 1].

(** ** The evaluator: proofs *)

(** Closes [board9 b] for a board [b] given cell by cell. *)
Ltac board9_by_computation :=
  split; [reflexivity|];
  cbv; repeat (constructor; [discriminate|]); constructor.

Lemma truthy_is_mark p : truthy p = true <-> is_mark p.
Proof. unfold is_mark. destruct p; simpl; intuition discriminate. Qed.

Lemma line_test board a b c :
  truthy (cell board a)
  && bool_decide (cell board a = cell board b)
  && bool_decide (cell board a = cell board c) = true
  <-> is_mark (cell board a) /\ holds board (cell board a) (a, b, c).
Proof.
  rewrite !andb_true_iff, !bool_decide_eq_true, truthy_is_mark.
  unfold holds. intuition congruence.
Qed.

Lemma line_test_false board a b c :
  truthy (cell board a)
  && bool_decide (cell board a = cell board b)
  && bool_decide (cell board a = cell board c) = false
  <-> unowned board (a, b, c).
Proof.
  rewrite <- not_true_iff_false, line_test. unfold unowned, holds.
  split.
  - intros Hn m Hm (Ha & Hb & Hc). apply Hn. rewrite Ha. auto.
  - intros Hu [Hm Hh]. exact (Hu _ Hm Hh).
Qed.

(** What the loop of [checkWinner] returns. *)
Lemma scanLines_spec board combos :
  match scanLines board combos with
  | Some p =>
      is_mark p /\
      exists before t after,
        combos = before ++ t :: after /\ holds board p t /\
        Forall (unowned board) before
  | None => Forall (unowned board) combos
  end.
Proof.
  induction combos as [|[[a b] c] rest IH]; simpl; [constructor|].
  destruct (truthy (cell board a) && _ && _) eqn:Htest.
  - apply line_test in Htest as [Hm Hh]. split; [done|].
    exists [], (a, b, c), rest. split; [done|]. split; [exact Hh|constructor].
  - apply line_test_false in Htest.
    destruct (scanLines board rest) as [p|].
    + destruct IH as (Hm & before & t & after & -> & Hh & Hbefore).
      split; [done|]. exists ((a, b, c) :: before), t, after.
      split; [done|]. split; [exact Hh|]. by constructor.
    + by constructor.
Qed.

Lemma holds_functional board m m' t :
  holds board m t -> holds board m' t -> m = m'.
Proof. destruct t as [[a b] c]. unfold holds. intuition congruence. Qed.

Lemma scanLines_first board before t after m :
  is_mark m -> holds board m t -> Forall (unowned board) before ->
  scanLines board (before ++ t :: after) = Some m.
Proof.
  intros Hm Hh Hbefore.
  induction Hbefore as [|[[a b] c] before Hu _ IH]; simpl.
  - destruct t as [[a b] c].
    destruct (truthy (cell board a) && _ && _) eqn:Htest.
    + f_equal. by destruct Hh as (-> & _).
    + apply line_test_false in Htest. by destruct (Htest m Hm).
  - apply line_test_false in Hu. by rewrite Hu.
Qed.

Lemma scanLines_None board combos :
  scanLines board combos = None <-> Forall (unowned board) combos.
Proof.
  split.
  - intros Hnone. pose proof (scanLines_spec board combos) as Hs.
    rewrite Hnone in Hs. exact Hs.
  - induction 1 as [|[[a b] c] rest Hu _ IH]; simpl; [done|].
    apply line_test_false in Hu. by rewrite Hu.
Qed.

(** The [every] test on a nine-cell board. *)
Lemma every_full board :
  board9 board ->
  forallb (fun c => negb (bool_decide (c = null))) board = true <->
  full board.
Proof.
  intros [Hlen Hdef]. rewrite forallb_forall. unfold full. split.
  - intros Hall i Hi.
    destruct (lookup_lt_is_Some_2 board i) as [c Hc]; [lia|].
    unfold cell. rewrite Hc. simpl.
    assert (Hin : In c board)
      by (apply list_elem_of_In; eapply list_elem_of_lookup_2; eauto).
    specialize (Hall c Hin). apply negb_true_iff, bool_decide_eq_false in Hall.
    rewrite Forall_forall in Hdef.
    specialize (Hdef c (proj2 (list_elem_of_In _ _) Hin)).
    unfold is_mark. destruct c; intuition congruence.
  - intros Hfull c Hin. apply list_elem_of_In, list_elem_of_lookup in Hin as [i Hi].
    assert (i < 9) as Hlt by (rewrite <- Hlen; eapply lookup_lt_Some; eauto).
    specialize (Hfull i Hlt). unfold cell in Hfull. rewrite Hi in Hfull.
    simpl in Hfull. apply negb_true_iff, bool_decide_eq_false.
    destruct Hfull; congruence.
Qed.

Lemma checkWinner_mark_iff board m :
  is_mark m -> (checkWinner board = player m <-> first_owner board m).
Proof.
  intros Hm. unfold checkWinner, first_owner.
  pose proof (scanLines_spec board WINNING_COMBINATIONS) as Hs.
  split.
  - destruct (scanLines board WINNING_COMBINATIONS) as [p|].
    + intros [= ->]. by destruct Hs as [_ Hs].
    + destruct (forallb _ board); [done|].
      intros [= <-]. destruct Hm; discriminate.
  - intros (before & t & after & Heq & Hh & Hbefore).
    rewrite Heq. by erewrite scanLines_first.
Qed.

Lemma unowned_all_iff board :
  Forall (unowned board) WINNING_COMBINATIONS <->
  (forall m, is_mark m -> ~ owns board m).
Proof.
  rewrite Forall_forall. unfold owns, unowned. split.
  - intros Hall m Hm (t & Hin & Hh). exact (Hall t Hin m Hm Hh).
  - intros Hnone t Hin m Hm Hh. apply (Hnone m Hm). by exists t.
Qed.

Lemma first_owner_owns board m : first_owner board m -> owns board m.
Proof.
  intros (before & t & after & Heq & Hh & _). exists t. split; [|done].
  rewrite Heq. apply elem_of_app. right. constructor.
Qed.

Lemma checkWinner_no_owner board :
  (forall m, is_mark m -> ~ owns board m) ->
  checkWinner board =
    if forallb (fun c => negb (bool_decide (c = null))) board
    then tie else player null.
Proof.
  intros Hnone.
  apply (proj2 (unowned_all_iff board)), (proj2 (scanLines_None _ _)) in Hnone.
  unfold checkWinner. by rewrite Hnone.
Qed.

Lemma checkWinner_owned board m :
  is_mark m -> owns board m ->
  exists p, is_mark p /\ checkWinner board = player p /\ first_owner board p.
Proof.
  intros Hm Hown.
  pose proof (scanLines_spec board WINNING_COMBINATIONS) as Hs.
  unfold checkWinner.
  destruct (scanLines board WINNING_COMBINATIONS) as [p|].
  - destruct Hs as [Hp Hfirst]. by exists p.
  - destruct (proj1 (unowned_all_iff board) Hs m Hm Hown).
Qed.

(** C1, as the claim states it, fails: on a board where the top row is X
    and the middle row is O, a winning triple is filled by O, yet
    [checkWinner] answers X, the mark of the first filled triple. *)
Lemma checkWinner_spec_fails_two_lines :
  board9 twoLines /\ owns twoLines O /\ checkWinner twoLines = player X /\
  ~ evaluator_spec twoLines.
Proof.
  assert (HO : owns twoLines O).
  { exists (3, 4, 5). split; [|by cbv].
    unfold WINNING_COMBINATIONS. rewrite !elem_of_cons. auto. }
  split; [|split; [exact HO|split; [reflexivity|]]].
  - board9_by_computation.
  - intros [Hwin _]. apply (Hwin O) in HO; [|by right].
    vm_compute in HO. discriminate.
Qed.

(** C1 (amended): on every nine-cell board [checkWinner] answers a mark [m]
    exactly when the first filled triple, in the listed order, is filled by
    [m]; with no filled triple it answers [tie] exactly when all nine cells
    carry a mark, and [null] otherwise.  When X and O do not both fill a
    triple, the answer is [m] exactly when some triple is filled by [m]. *)
Theorem checkWinner_correct board :
  board9 board ->
  (forall m, is_mark m ->
     (checkWinner board = player m <-> first_owner board m)) /\
  ((forall m, is_mark m -> ~ owns board m) ->
     (checkWinner board = tie <-> full board)) /\
  ((forall m, is_mark m -> ~ owns board m) -> ~ full board ->
     checkWinner board = player null) /\
  (~ (owns board X /\ owns board O) ->
     forall m, is_mark m -> (checkWinner board = player m <-> owns board m)).
Proof.
  intros Hb9. split; [|split; [|split]].
  - intros m Hm. by apply checkWinner_mark_iff.
  - intros Hnone. rewrite (checkWinner_no_owner _ Hnone), <- (every_full _ Hb9).
    destruct (forallb _ board); intuition discriminate.
  - intros Hnone Hnf. rewrite (checkWinner_no_owner _ Hnone).
    rewrite <- (every_full _ Hb9) in Hnf. by destruct (forallb _ board).
  - intros Hone m Hm. split.
    + intros Hw. by apply first_owner_owns, checkWinner_mark_iff.
    + intros Hown.
      destruct (checkWinner_owned _ _ Hm Hown) as (p & Hp & Hw & Hfirst).
      apply first_owner_owns in Hfirst. rewrite Hw. f_equal.
      destruct Hm as [-> | ->], Hp as [-> | ->]; try done;
        exfalso; apply Hone; by split.
Qed.

Lemma checkWinner_correct_witness :
  board9 topRowX /\ ~ (owns topRowX X /\ owns topRowX O) /\
  (checkWinner topRowX = player X <-> owns topRowX X).
Proof.
  assert (Hb9 : board9 topRowX) by board9_by_computation.
  assert (Hone : ~ (owns topRowX X /\ owns topRowX O)).
  { intros [_ (t & Hin & Hh)]. unfold WINNING_COMBINATIONS in Hin.
    repeat (apply elem_of_cons in Hin as [-> | Hin];
            [cbv in Hh; intuition discriminate|]).
    by apply elem_of_nil in Hin. }
  split; [exact Hb9|]. split; [exact Hone|].
  exact (proj2 (proj2 (proj2 (checkWinner_correct topRowX Hb9))) Hone X
           (or_introl eq_refl)).
Defined.

(** ** The move handler: proofs *)

Lemma truthyW_terminal w : truthyW w = true <-> terminal w.
Proof.
  unfold terminal. destruct w as [[| | |]|]; simpl; intuition discriminate.
Qed.

Lemma makeMove_None s index :
  makeMove s index = None <->
  is_mark (cell (board s) index) \/ terminal (winner s).
Proof.
  unfold makeMove. rewrite <- truthy_is_mark, <- truthyW_terminal.
  rewrite <- orb_true_iff.
  destruct (truthy (cell (board s) index) || truthyW (winner s));
    intuition discriminate.
Qed.

Lemma cell_assign_eq board index v : cell (assign board index v) index = v.
Proof.
  unfold cell, assign. case_decide as Hlt.
  - by rewrite list_lookup_insert_eq.
  - rewrite lookup_app_r by lia.
    rewrite lookup_app_r by (rewrite length_replicate; lia).
    rewrite length_replicate.
    by replace (index - length board - (index - length board)) with 0 by lia.
Qed.

Lemma checkWinner_range board :
  checkWinner board = player X \/ checkWinner board = player O \/
  checkWinner board = tie \/ checkWinner board = player null.
Proof.
  unfold checkWinner.
  pose proof (scanLines_spec board WINNING_COMBINATIONS) as Hs.
  destruct (scanLines board WINNING_COMBINATIONS) as [p|].
  - destruct Hs as [[-> | ->] _]; auto.
  - destruct (forallb _ board); auto.
Qed.

(** The state an accepted click leads to, field by field. *)
Lemma onClick_accepted s index :
  makeMove s index <> None ->
  let newBoard := assign (board s) index (currentPlayer s) in
  let w := checkWinner newBoard in
  onClick s index =
    {| board := newBoard;
       currentPlayer := if truthyW w then currentPlayer s
                        else if bool_decide (currentPlayer s = X) then O else X;
       winner := w;
       gameMode := gameMode s;
       scores := if truthyW w then bump w (scores s) else scores s |}.
Proof.
  unfold onClick, makeMove.
  by destruct (truthy (cell (board s) index) || truthyW (winner s)).
Qed.

Lemma onClick_rejected s index : makeMove s index = None -> onClick s index = s.
Proof. unfold onClick. by intros ->. Qed.

Lemma onClick_terminal s indices :
  terminal (winner s) -> foldl onClick s indices = s.
Proof.
  intros Hterm. induction indices as [|index rest IH]; simpl; [done|].
  rewrite onClick_rejected; [done|]. apply makeMove_None. by right.
Qed.

Lemma cell_not_null board index :
  board9 board -> index < 9 ->
  (cell board index <> null <-> is_mark (cell board index)).
Proof.
  intros [Hlen Hdef] Hlt.
  destruct (lookup_lt_is_Some_2 board index) as [c Hc]; [lia|].
  unfold cell. rewrite Hc. simpl.
  rewrite Forall_forall in Hdef.
  specialize (Hdef c (list_elem_of_lookup_2 _ _ _ Hc)).
  unfold is_mark. destruct c; intuition congruence.
Qed.

(** The guard of [makeMove] when a click calls it, that is in the render of
    the current state: on a nine-cell board and for an index in 0..8 it
    returns at its guard exactly when the target cell is not empty or the
    recorded outcome is final; a rejected call leaves the whole state as it
    was; a second call on an occupied cell is rejected again, also when it
    is the first call that occupied it; and once the outcome is final no
    sequence of clicks changes the state. *)
Theorem makeMove_rejected s index :
  board9 (board s) -> index < 9 ->
  (makeMove s index = None <->
     cell (board s) index <> null \/ terminal (winner s)) /\
  (makeMove s index = None -> onClick s index = s) /\
  (cell (board s) index <> null ->
     makeMove s index = None /\ makeMove (onClick s index) index = None) /\
  (is_mark (currentPlayer s) -> makeMove (onClick s index) index = None) /\
  (terminal (winner s) ->
     forall indices i,
       foldl onClick s indices = s /\
       makeMove (foldl onClick s indices) i = None).
Proof.
  intros Hb9 Hlt.
  assert (Hiff : makeMove s index = None <->
                 cell (board s) index <> null \/ terminal (winner s))
    by (rewrite makeMove_None, (cell_not_null _ _ Hb9 Hlt); tauto).
  split; [exact Hiff|]. split; [apply onClick_rejected|].
  split; [|split].
  - intros Hocc. assert (Hrej : makeMove s index = None) by tauto.
    split; [done|]. by rewrite (onClick_rejected _ _ Hrej).
  - intros Hmark. destruct (makeMove s index) as [upd|] eqn:Hmove.
    + rewrite onClick_accepted by (rewrite Hmove; discriminate).
      apply makeMove_None. left. simpl. by rewrite cell_assign_eq.
    + by rewrite (onClick_rejected _ _ Hmove).
  - intros Hterm indices i. rewrite (onClick_terminal _ _ Hterm).
    split; [done|]. apply makeMove_None. by right.
Qed.

Lemma makeMove_rejected_witness :
  board9 (board afterX0) /\ 0 < 9 /\ cell (board afterX0) 0 <> null /\
  makeMove afterX0 0 = None /\ makeMove (onClick afterX0 0) 0 = None.
Proof.
  assert (Hb9 : board9 (board afterX0)) by board9_by_computation.
  assert (Hlt : 0 < 9) by lia.
  assert (Hocc : cell (board afterX0) 0 <> null) by (cbv; discriminate).
  split; [exact Hb9|]. split; [exact Hlt|]. split; [exact Hocc|].
  exact (proj1 (proj2 (proj2 (makeMove_rejected afterX0 0 Hb9 Hlt))) Hocc).
Defined.



(** The turn after a click: after an accepted click that leaves the game
    going, the turn passes to the other mark; after an accepted click that
    ends the game, the turn stays with the mover.  Hence, from X to move, a
    run of accepted clicks none of which ends the game leaves X to move
    after an even number of clicks and O after an odd number. *)
Theorem makeMove_turn s :
  (forall index,
     makeMove s index <> None ->
     let s' := onClick s index in
     (winner s' = player null ->
        (currentPlayer s = X -> currentPlayer s' = O) /\
        (currentPlayer s = O -> currentPlayer s' = X)) /\
     (terminal (winner s') -> currentPlayer s' = currentPlayer s)) /\
  (forall indices,
     currentPlayer s = X -> quiet s indices ->
     currentPlayer (foldl onClick s indices) =
       if Nat.even (length indices) then X else O).
Proof.
  assert (Hstep : forall t index,
    makeMove t index <> None ->
    (winner (onClick t index) = player null ->
       (currentPlayer t = X -> currentPlayer (onClick t index) = O) /\
       (currentPlayer t = O -> currentPlayer (onClick t index) = X)) /\
    (terminal (winner (onClick t index)) ->
       currentPlayer (onClick t index) = currentPlayer t)).
  { intros t index Hacc. rewrite (onClick_accepted _ _ Hacc). simpl. split.
    - intros ->. simpl. split; by intros ->.
    - intros Hterm. apply truthyW_terminal in Hterm. by rewrite Hterm. }
  split; [intros index Hacc; exact (Hstep s index Hacc)|].
  intros indices. revert s.
  assert (Hgen : forall indices t,
    is_mark (currentPlayer t) -> quiet t indices ->
    currentPlayer (foldl onClick t indices) =
      if Nat.even (length indices) then currentPlayer t
      else if bool_decide (currentPlayer t = X) then O else X).
  { clear indices. induction indices as [|index rest IH]; intros t Hm Hq; [done|].
    destruct Hq as (Hacc & Hgo & Hq). cbn [foldl length].
    destruct (Hstep t index Hacc) as [Hflip _].
    destruct (Hflip Hgo) as [HX HO].
    rewrite IH; [|destruct Hm as [Hm|Hm]; [right; auto|left; auto]|done].
    rewrite Nat.even_succ, <- Nat.negb_even.
    destruct Hm as [Hm|Hm]; rewrite ?(HX Hm), ?(HO Hm), Hm;
      by destruct (Nat.even (length rest)). }
  intros s HX Hq. rewrite (Hgen indices s); [|by left|done].
  by rewrite HX.
Qed.

Lemma makeMove_turn_witness :
  currentPlayer initialState = X /\ quiet initialState [0; 4; 1] /\
  currentPlayer (foldl onClick initialState [0; 4; 1]) = O.
Proof.
  assert (HX : currentPlayer initialState = X) by reflexivity.
  assert (Hq : quiet initialState [0; 4; 1])
    by (cbv; repeat split; (discriminate || reflexivity)).
  split; [exact HX|]. split; [exact Hq|].
  exact (proj2 (makeMove_turn initialState) [0; 4; 1] HX Hq).
Defined.

(** ** The reset handlers: proofs *)

(** C9: [resetGame] empties the nine cells, gives the turn to X and clears
    the recorded outcome, and leaves the mode and the three counters as they
    were; [switchGameMode] does the same and installs the chosen mode; the
    New Game and mode buttons install exactly these states. *)
Theorem reset_frame s mode :
  resetGame s =
    {| board := replicate 9 null; currentPlayer := X; winner := null;
       gameMode := gameMode s; scores := scores s |} /\
  switchGameMode mode s =
    {| board := board (resetGame s);
       currentPlayer := currentPlayer (resetGame s);
       winner := winner (resetGame s);
       gameMode := mode; scores := scores s |} /\
  (forall i, i < 9 -> cell (board (resetGame s)) i = null) /\
  length (board (resetGame s)) = 9 /\
  (forall w,
     current (step w NewGame) = resetGame (current w) /\
     current (step w (SwitchMode mode)) = switchGameMode mode (current w)).
Proof.
  split; [reflexivity|]. split; [reflexivity|]. split.
  - intros i Hi. unfold cell. simpl. unfold emptyBoard.
    by rewrite lookup_replicate_2.
  - split; [reflexivity|]. intros w. by split.
Qed.

(** ** The heuristic opponent: proofs *)

Lemma floorMul_lt random n : 0 < n -> floorMul random n < n.
Proof.
  intros Hn. unfold floorMul. pose proof (draw_lt random) as Hlt.
  apply Nat.Div0.div_lt_upper_bound. nia.
Qed.

Lemma availableMoves_from board :
  availableMoves board = omap id (imap (freeAt 0) board).
Proof. reflexivity. Qed.

Lemma freeAt_cons k c rest :
  omap id (imap (freeAt k) (c :: rest)) =
  (if bool_decide (c = null) then [k] else [])
  ++ omap id (imap (freeAt (S k)) rest).
Proof.
  rewrite imap_cons.
  rewrite (imap_ext (freeAt k ∘ S) (freeAt (S k))).
  - unfold freeAt at 1. rewrite Nat.add_0_r. by case_bool_decide.
  - intros i x _. unfold freeAt. simpl. by rewrite Nat.add_succ_r.
Qed.

Lemma freeAt_elem k board i :
  i ∈ omap id (imap (freeAt k) board) <->
  k <= i /\ board !! (i - k) = Some null.
Proof.
  revert k. induction board as [|c rest IH]; intros k.
  - simpl. rewrite elem_of_nil, lookup_nil. intuition discriminate.
  - rewrite freeAt_cons, elem_of_app, IH.
    destruct (decide (i = k)) as [-> | Hne].
    + rewrite Nat.sub_diag. simpl. case_bool_decide as Hc.
      * subst c. rewrite list_elem_of_singleton. intuition lia.
      * rewrite elem_of_nil. split; [intros [[] | [? _]]; lia|].
        intros [_ [= ->]]. done.
    + assert (Hk : forall l : list nat, l = [k] \/ l = [] -> ~ i ∈ l).
      { intros l [-> | ->]; [rewrite list_elem_of_singleton; lia
                            |apply not_elem_of_nil]. }
      split.
      * intros [Hin | [Hle Hl]].
        { exfalso. revert Hin. apply Hk. case_bool_decide; auto. }
        split; [lia|].
        replace (i - k) with (S (i - S k)) by lia. exact Hl.
      * intros [Hle Hl]. right. split; [lia|].
        replace (i - k) with (S (i - S k)) in Hl by lia. exact Hl.
Qed.

(** A move is legal exactly when the cell is [null]. *)
Lemma availableMoves_elem board i :
  i ∈ availableMoves board <-> cell board i = null.
Proof.
  rewrite availableMoves_from, freeAt_elem, Nat.sub_0_r. unfold cell.
  destruct (board !! i) as [c|]; simpl; split;
    try (intros [_ [= ->]]; done); try discriminate.
  intros ->. split; [lia|done].
Qed.

Lemma availableMoves_lt board i :
  i ∈ availableMoves board -> i < length board.
Proof.
  rewrite availableMoves_from, freeAt_elem, Nat.sub_0_r.
  intros [_ Hl]. by eapply lookup_lt_Some.
Qed.

(** The loops over [availableMoves] meet the legal moves in ascending
    order: the move a loop returns is the least one that passes its test. *)
Lemma find_freeAt_least (test : nat -> bool) k board move :
  find test (omap id (imap (freeAt k) board)) = Some move ->
  forall move', move' ∈ omap id (imap (freeAt k) board) ->
    move' < move -> test move' = false.
Proof.
  revert k. induction board as [|c rest IH]; intros k; [discriminate|].
  rewrite freeAt_cons. case_bool_decide as Hc; simpl.
  - destruct (test k) eqn:Htest.
    + intros [= <-] move' Hin Hlt.
      apply elem_of_cons in Hin as [-> | Hin]; [lia|].
      apply freeAt_elem in Hin. lia.
    + intros Hfind move' Hin Hlt.
      apply elem_of_cons in Hin as [-> | Hin]; [done|]. by eapply IH.
  - apply IH.
Qed.

Lemma find_first_legal board test move :
  find test (availableMoves board) = Some move <->
  first_legal board test move.
Proof.
  unfold first_legal. split.
  - intros Hfind. destruct (find_some _ _ Hfind) as [Hin Htest].
    split; [by apply list_elem_of_In|]. split; [done|].
    intros move'. rewrite availableMoves_from in *.
    by apply find_freeAt_least.
  - intros (Hin & Htest & Hleast).
    destruct (find test (availableMoves board)) as [m|] eqn:Hfind.
    + destruct (find_some _ _ Hfind) as [Hin' Htest'].
      apply list_elem_of_In in Hin'.
      assert (Hl : forall move', move' ∈ availableMoves board ->
                     move' < m -> test move' = false).
      { intros move'. rewrite availableMoves_from in *.
        by apply find_freeAt_least. }
      f_equal. destruct (Nat.lt_trichotomy m move) as [Hlt | [Heq | Hgt]];
        [|done|].
      * rewrite (Hleast m Hin' Hlt) in Htest'. discriminate.
      * rewrite (Hl move Hin Hgt) in Htest. discriminate.
    + apply list_elem_of_In in Hin.
      rewrite (find_none _ _ Hfind move Hin) in Htest. discriminate.
Qed.

Lemma find_none_legal board test :
  find test (availableMoves board) = None <-> none_legal board test.
Proof.
  unfold none_legal. split.
  - intros Hfind move Hin. apply (find_none _ _ Hfind).
    by apply list_elem_of_In.
  - intros Hnone. destruct (find test (availableMoves board)) as [m|] eqn:Hfind;
      [|done].
    destruct (find_some _ _ Hfind) as [Hin Htest].
    apply list_elem_of_In in Hin. rewrite (Hnone m Hin) in Htest. discriminate.
Qed.

(** A read at a drawn position of a non-empty array stays inside it, and
    every position can be drawn. *)
Lemma pick_in (l : list nat) random :
  l <> [] -> exists c, l !! floorMul random (length l) = Some c /\ c ∈ l.
Proof.
  intros Hne.
  assert (Hlen : 0 < length l) by (destruct l; [done|simpl; lia]).
  destruct (lookup_lt_is_Some_2 l _ (floorMul_lt random _ Hlen)) as [c Hc].
  exists c. split; [done|]. by eapply list_elem_of_lookup_2.
Qed.

Lemma pick_any (l : list nat) c :
  c ∈ l -> exists random, l !! floorMul random (length l) = Some c.
Proof.
  intros Hin. apply list_elem_of_lookup in Hin as [k Hk].
  pose proof (lookup_lt_Some _ _ _ Hk) as Hlt.
  exists (mkDraw k (length l) Hlt). unfold floorMul. simpl.
  rewrite Nat.div_mul by lia. exact Hk.
Qed.

Lemma emptyCorners_elem board c :
  c ∈ emptyCorners board <-> c ∈ [0; 2; 6; 8] /\ cell board c = null.
Proof.
  unfold emptyCorners. rewrite list_elem_of_filter, availableMoves_elem. tauto.
Qed.

(** What [getBestMove] does once both loops have run to their end. *)
Lemma getBestMove_no_line g random :
  let b := board g in
  none_legal b (completes b O) -> none_legal b (completes b X) ->
  getBestMove g (availableMoves b) random =
    if includes (availableMoves b) 4 then Some 4
    else if decide (0 < length (emptyCorners b))
         then emptyCorners b !! floorMul random (length (emptyCorners b))
         else availableMoves b
                !! floorMul random (length (availableMoves b)).
Proof.
  simpl. intros HO HX. unfold getBestMove.
  apply find_none_legal in HO, HX. by rewrite HO, HX.
Qed.

(** The two loops: the first hit of the first loop is returned; with no hit
    there, the first hit of the second. *)
Lemma getBestMove_win g random move :
  first_legal (board g) (completes (board g) O) move ->
  getBestMove g (availableMoves (board g)) random = Some move.
Proof.
  intros Hfirst. apply find_first_legal in Hfirst.
  unfold getBestMove. by rewrite Hfirst.
Qed.

Lemma getBestMove_block g random move :
  none_legal (board g) (completes (board g) O) ->
  first_legal (board g) (completes (board g) X) move ->
  getBestMove g (availableMoves (board g)) random = Some move.
Proof.
  intros HO Hfirst. apply find_first_legal in Hfirst.
  apply find_none_legal in HO. unfold getBestMove. by rewrite HO, Hfirst.
Qed.

Lemma includes_legal board i :
  includes (availableMoves board) i = true <-> cell board i = null.
Proof.
  unfold includes. by rewrite bool_decide_eq_true, availableMoves_elem.
Qed.

Lemma getBestMove_available g av random :
  av <> [] -> exists move, getBestMove g av random = Some move /\ move ∈ av.
Proof.
  intros Hav. unfold getBestMove.
  destruct (find (completes (board g) O) av) as [m|] eqn:HO.
  { exists m. split; [done|]. apply list_elem_of_In. by eapply find_some. }
  destruct (find (completes (board g) X) av) as [m|] eqn:HX.
  { exists m. split; [done|]. apply list_elem_of_In. by eapply find_some. }
  unfold includes. case_bool_decide as H4; [by exists 4|].
  case_decide as Hlen.
  - destruct (pick_in (filter (fun i => i ∈ av) [0; 2; 6; 8]) random)
      as (c & Hc & Hin).
    { intros Hnil. rewrite Hnil in Hlen. simpl in Hlen. lia. }
    exists c. split; [done|]. by apply list_elem_of_filter in Hin as [? _].
  - exact (pick_in av random Hav).
Qed.

(** The tests of the two loops and the empty cells, in the words of the
    priority order. *)
Lemma completes_wins board mark move :
  completes board mark move = true <-> wins_with board mark move.
Proof. unfold completes, wins_with. apply bool_decide_eq_true. Qed.

Lemma first_legal_empty board mark move :
  first_legal board (completes board mark) move <->
  first_empty board (wins_with board mark) move.
Proof.
  unfold first_legal, first_empty.
  rewrite availableMoves_elem, completes_wins. split.
  - intros (Hnull & Hwin & Hleast). split; [done|]. split; [done|].
    intros move' Hlt Hnull' Hwin'. apply completes_wins in Hwin'.
    rewrite (Hleast move') in Hwin'; [discriminate| |done].
    by apply availableMoves_elem.
  - intros (Hnull & Hwin & Hleast). split; [done|]. split; [done|].
    intros move' Hin Hlt. apply availableMoves_elem in Hin.
    apply not_true_is_false. rewrite completes_wins. by apply Hleast.
Qed.

Lemma none_legal_empty board mark :
  none_legal board (completes board mark) <->
  no_empty board (wins_with board mark).
Proof.
  unfold none_legal, no_empty. split.
  - intros Hnone move Hnull Hwin. apply completes_wins in Hwin.
    rewrite Hnone in Hwin; [discriminate|]. by apply availableMoves_elem.
  - intros Hnone move Hin. apply availableMoves_elem in Hin.
    apply not_true_is_false. rewrite completes_wins. by apply Hnone.
Qed.

Lemma emptyCorners_nil board :
  emptyCorners board = [] <->
  forall c, c ∈ [0; 2; 6; 8] -> cell board c <> null.
Proof.
  split.
  - intros Hnil c Hc Hnull.
    assert (Hin : c ∈ emptyCorners board) by by apply emptyCorners_elem.
    rewrite Hnil in Hin. by apply elem_of_nil in Hin.
  - intros Hnone. destruct (emptyCorners board) as [|c rest] eqn:Hcorners;
      [done|].
    assert (Hin : c ∈ emptyCorners board) by (rewrite Hcorners; by left).
    apply emptyCorners_elem in Hin as [Hc Hnull]. by destruct (Hnone c Hc).
Qed.

(** Every move [getBestMove] returns is one the priority order allows. *)
Lemma getBestMove_sound g random move :
  getBestMove g (availableMoves (board g)) random = Some move ->
  priority_choice (board g) move.
Proof.
  intros Hbest. unfold priority_choice.
  destruct (find (completes (board g) O) (availableMoves (board g)))
    as [m|] eqn:HO.
  { left. apply first_legal_empty, find_first_legal.
    unfold getBestMove in Hbest. rewrite HO in Hbest. congruence. }
  right. apply find_none_legal in HO.
  split; [by apply none_legal_empty|].
  destruct (find (completes (board g) X) (availableMoves (board g)))
    as [m|] eqn:HX.
  { left. apply first_legal_empty, find_first_legal.
    unfold getBestMove in Hbest.
    rewrite (proj2 (find_none_legal _ _) HO), HX in Hbest. congruence. }
  right. apply find_none_legal in HX.
  split; [by apply none_legal_empty|].
  pose proof (getBestMove_no_line g random HO HX) as Hrest. simpl in Hrest.
  rewrite Hrest in Hbest. clear Hrest.
  destruct (includes (availableMoves (board g)) 4) eqn:H4.
  { left. apply includes_legal in H4. split; [done|]. congruence. }
  right. split; [by rewrite <- includes_legal, H4|].
  case_decide as Hlen.
  - left. apply emptyCorners_elem. by eapply list_elem_of_lookup_2.
  - right. split.
    + apply emptyCorners_nil. destruct (emptyCorners (board g)); [done|].
      simpl in Hlen. lia.
    + apply availableMoves_elem. by eapply list_elem_of_lookup_2.
Qed.

(** Every move the priority order allows is returned for some draw. *)
Lemma getBestMove_complete g (random : Draw) move :
  priority_choice (board g) move ->
  exists random', getBestMove g (availableMoves (board g)) random' = Some move.
Proof.
  intros [Hwin | [HO [Hblock | [HX Hrest]]]].
  - exists random. by apply getBestMove_win, first_legal_empty.
  - exists random.
    by apply getBestMove_block; [apply none_legal_empty|apply first_legal_empty].
  - apply none_legal_empty in HO, HX.
    assert (Hline := fun r => getBestMove_no_line g r HO HX). simpl in Hline.
    destruct Hrest as [[H4 ->] | [H4 Hrest]].
    { exists random. apply includes_legal in H4. by rewrite Hline, H4. }
    assert (Hinc : includes (availableMoves (board g)) 4 = false).
    { apply not_true_iff_false. by rewrite includes_legal. }
    destruct Hrest as [[Hc Hnull] | [Hnone Hnull]].
    + assert (Hin : move ∈ emptyCorners (board g))
        by by apply emptyCorners_elem.
      destruct (pick_any _ _ Hin) as [r' Hr']. exists r'.
      rewrite Hline, Hinc. rewrite decide_True; [done|].
      destruct (emptyCorners (board g)); [by apply elem_of_nil in Hin|].
      simpl. lia.
    + apply emptyCorners_nil in Hnone.
      destruct (pick_any (availableMoves (board g)) move) as [r' Hr'];
        [by apply availableMoves_elem|].
      exists r'. by rewrite Hline, Hinc, Hnone.
Qed.

(** C2: [getBestMove] follows the fixed priority order.  Whatever it
    returns is allowed by the order, and whatever the order allows is
    returned for some draw: the first empty cell, in ascending order, on
    which an O makes [checkWinner] answer O; if there is none, the first
    empty cell on which an X makes [checkWinner] answer X; if there is
    none, the centre 4 when it is empty; if it is not, any empty corner
    among 0, 2, 6, 8; if there is none, any empty cell.  The first three
    do not depend on the draw, and a move is returned whenever a cell is
    empty.  On [O,O,_,X,X,_,_,_,_] (legal cells 2, 5, 6, 7, 8, where 2 wins
    and 5 would block) it returns 2; on [X,X,_,O,_,_,_,_,_] it returns 2,
    which blocks, although cell 4 is empty; on [X,_,_,_,_,_,_,_,_] it
    returns 4. *)
Theorem getBestMove_priority g random :
  let b := board g in
  let best := getBestMove g (availableMoves b) in
  (forall move, best random = Some move -> priority_choice b move) /\
  (forall move, priority_choice b move ->
     exists random', best random' = Some move) /\
  ((exists i, cell b i = null) -> exists move, best random = Some move) /\
  (forall move, first_empty b (wins_with b O) move ->
     best random = Some move /\
     checkWinner (assign b move O) = player O) /\
  (no_empty b (wins_with b O) ->
     (forall move, first_empty b (wins_with b X) move ->
        best random = Some move /\
        checkWinner (assign b move X) = player X) /\
     (no_empty b (wins_with b X) -> cell b 4 = null ->
        best random = Some 4)) /\
  (b = winOrBlock ->
     availableMoves b = [2; 5; 6; 7; 8] /\ best random = Some 2 /\
     wins_with b O 2 /\ wins_with b X 5) /\
  (b = blockOrCenter ->
     cell b 4 = null /\ best random = Some 2 /\ wins_with b X 2) /\
  (b = centreOpen -> best random = Some 4).
Proof.
  simpl. split_and!.
  - apply getBestMove_sound.
  - apply getBestMove_complete. exact random.
  - intros (i & Hi).
    destruct (getBestMove_available g (availableMoves (board g)) random)
      as (move & Hbest & _); [|by exists move].
    apply availableMoves_elem in Hi. intros Hnil. rewrite Hnil in Hi.
    by apply elem_of_nil in Hi.
  - intros move Hfirst. split; [|apply Hfirst].
    by apply getBestMove_win, first_legal_empty.
  - intros HO. split.
    + intros move Hfirst. split; [|apply Hfirst].
      by apply getBestMove_block;
        [apply none_legal_empty|apply first_legal_empty].
    + intros HX H4. apply none_legal_empty in HO, HX.
      pose proof (getBestMove_no_line g random HO HX) as Hline.
      simpl in Hline. apply includes_legal in H4. by rewrite Hline, H4.
  - intros Hb. unfold getBestMove. rewrite Hb. by split_and!.
  - intros Hb. unfold getBestMove. rewrite Hb. by split_and!.
  - intros Hb. unfold getBestMove. by rewrite Hb.
Qed.

Lemma getBestMove_priority_witness :
  first_empty winOrBlock (wins_with winOrBlock O) 2 /\
  getBestMove (aiToMove winOrBlock) (availableMoves winOrBlock) firstDraw
    = Some 2 /\
  checkWinner (assign winOrBlock 2 O) = player O.
Proof.
  assert (Hfirst : first_empty winOrBlock (wins_with winOrBlock O) 2).
  { split; [reflexivity|]. split; [reflexivity|].
    intros move' Hlt Hnull.
    destruct move' as [|[|move']]; [discriminate Hnull..|lia]. }
  split; [exact Hfirst|].
  exact (proj1 (proj2 (proj2 (proj2
           (getBestMove_priority (aiToMove winOrBlock) firstDraw))))
           2 Hfirst).
Defined.

(** C8: on a nine-cell board with at least one empty cell, whatever the
    draw, [getBestMove] returns an index in 0..8 whose cell is empty.  (That
    no mark has won is not needed.) *)
Theorem getBestMove_legal g random :
  board9 (board g) ->
  (exists i, i < 9 /\ cell (board g) i = null) ->
  exists move,
    getBestMove g (availableMoves (board g)) random = Some move /\
    move < 9 /\ cell (board g) move = null.
Proof.
  intros [Hlen _] (i & _ & Hi).
  destruct (getBestMove_available g (availableMoves (board g)) random)
    as (move & Hbest & Hin).
  { apply availableMoves_elem in Hi. intros Hnil. rewrite Hnil in Hi.
    by apply elem_of_nil in Hi. }
  exists move. split; [done|]. split.
  - rewrite <- Hlen. by apply availableMoves_lt.
  - by apply availableMoves_elem.
Qed.

Lemma getBestMove_legal_witness :
  board9 edgesOnly /\ (exists i, i < 9 /\ cell edgesOnly i = null) /\
  exists move,
    getBestMove (aiToMove edgesOnly) (availableMoves edgesOnly) lastDraw
      = Some move /\
    move < 9 /\ cell edgesOnly move = null.
Proof.
  assert (Hb9 : board9 edgesOnly) by board9_by_computation.
  assert (Hfree : exists i, i < 9 /\ cell edgesOnly i = null)
    by (exists 1; split; [lia|reflexivity]).
  split; [exact Hb9|]. split; [exact Hfree|].
  exact (getBestMove_legal (aiToMove edgesOnly) lastDraw Hb9 Hfree).
Defined.

(** ** The opponent's trigger and the transition system: proofs *)

Lemma makeAIMove_Some g callback :
  makeAIMove g = Some callback ->
  ~ terminal (winner g) /\ currentPlayer g <> X /\
  availableMoves (board g) <> [] /\
  callback = (fun random =>
    aiMove ← getBestMove g (availableMoves (board g)) random;
    makeMove g aiMove).
Proof.
  unfold makeAIMove. rewrite <- truthyW_terminal.
  destruct (truthyW (winner g)) eqn:Hw; [discriminate|]. simpl.
  case_bool_decide as HX; [discriminate|].
  case_bool_decide as Hlen; [discriminate|].
  intros [= <-]. repeat split; try done.
  intros Hnil. by rewrite Hnil in Hlen.
Qed.

Lemma makeAIMove_None g :
  makeAIMove g = None <->
  terminal (winner g) \/ currentPlayer g = X \/
  availableMoves (board g) = [].
Proof.
  unfold makeAIMove. rewrite <- truthyW_terminal.
  destruct (truthyW (winner g)); simpl; [intuition|].
  case_bool_decide as HX; [intuition|].
  case_bool_decide as Hlen.
  - apply length_zero_iff_nil in Hlen. intuition.
  - split; [discriminate|]. intros [? | [? | Hnil]]; try done.
    by rewrite Hnil in Hlen.
Qed.

Lemma aiEffect_Some g callback :
  aiEffect g = Some callback ->
  gameMode g = ai /\ currentPlayer g = O /\ ~ terminal (winner g) /\
  makeAIMove g = Some callback.
Proof.
  unfold aiEffect. rewrite <- truthyW_terminal.
  case_bool_decide as Hmode; [|discriminate].
  case_bool_decide as Hturn; [|discriminate].
  destruct (truthyW (winner g)); [discriminate|]. simpl. by intros ->.
Qed.

(** The board an accepted [makeMove] installs, whatever state React applies
    the updater to, and the outcome recorded with it. *)
Lemma makeMove_Some g index upd :
  makeMove g index = Some upd ->
  forall prev,
    board (upd prev) = assign (board g) index (currentPlayer g) /\
    winner (upd prev) = checkWinner (board (upd prev)).
Proof.
  unfold makeMove.
  destruct (truthy (cell (board g) index) || truthyW (winner g));
    [discriminate|].
  by intros [= <-] prev.
Qed.

(** A scheduled callback, when it fires, queues an updater that installs the
    board of the render it was scheduled in, with an O added on a cell that
    was empty there. *)
Lemma scheduled_fires callback random :
  scheduled callback ->
  exists g move upd,
    gameMode g = ai /\ currentPlayer g = O /\
    cell (board g) move = null /\
    callback random = Some upd /\
    forall prev, board (upd prev) = assign (board g) move O /\
                 winner (upd prev) = checkWinner (board (upd prev)).
Proof.
  intros [g Heff].
  destruct (aiEffect_Some _ _ Heff) as (Hmode & Hturn & Hgo & Hmk).
  destruct (makeAIMove_Some _ _ Hmk) as (_ & _ & Hav & ->).
  destruct (getBestMove_available g _ random Hav) as (move & Hbest & Hin).
  apply availableMoves_elem in Hin.
  destruct (makeMove g move) as [upd|] eqn:Hmove.
  - exists g, move, upd. rewrite Hbest. simpl. repeat split; try done.
    + rewrite <- Hturn. by apply (makeMove_Some _ _ _ Hmove).
    + by apply (makeMove_Some _ _ _ Hmove).
  - apply makeMove_None in Hmove as [Hocc | Hterm]; [|done].
    rewrite Hin in Hocc. destruct Hocc; discriminate.
Qed.

(** The invariant of the transition system. *)
Lemma reachable_inv w :
  reachable w ->
  winner (current w) = checkWinner (board (current w)) /\
  Forall scheduled (timeouts w).
Proof.
  assert (Hrender : forall pending old new,
    Forall scheduled pending ->
    Forall scheduled (timeouts (render pending old new))).
  { intros pending old new Hp. unfold render. simpl.
    apply Forall_app. split; [done|].
    case_bool_decide; [constructor|].
    destruct (aiEffect new) as [cb|] eqn:Heff; simpl; [|constructor].
    constructor; [by exists new|constructor]. }
  induction 1 as [|w e _ [Hw Ht]].
  - split; [reflexivity|]. simpl. constructor.
  - destruct e as [index| | |mode|random]; simpl.
    + split; [|by apply Hrender].
      unfold onClick. destruct (makeMove (current w) index) as [upd|] eqn:Hm;
        simpl; [|done].
      by apply (makeMove_Some _ _ _ Hm).
    + split; [reflexivity|by apply Hrender].
    + split; [done|by apply Hrender].
    + split; [reflexivity|by apply Hrender].
    + destruct (timeouts w) as [|callback rest] eqn:Hq; [by rewrite Hq|].
      apply Forall_cons in Ht as [Hcb Hrest].
      split; [|by apply Hrender].
      destruct (scheduled_fires callback random Hcb)
        as (g & move & upd & _ & _ & _ & -> & Hupd).
      simpl. apply Hupd.
Qed.

(** C7: in every state the component can reach, by clicks, New Game, Reset
    Scores, mode switches and the opponent's timeouts, the recorded [winner]
    is [checkWinner] of the recorded board. *)
Theorem winner_is_checkWinner w :
  reachable w -> winner (current w) = checkWinner (board (current w)).
Proof. intros Hr. by apply reachable_inv. Qed.

Lemma winner_is_checkWinner_witness :
  reachable (step (step initialWorld (Click 4)) ResetScores) /\
  winner (current (step (step initialWorld (Click 4)) ResetScores)) =
  checkWinner (board (current (step (step initialWorld (Click 4)) ResetScores))).
Proof.
  assert (Hr : reachable (step (step initialWorld (Click 4)) ResetScores))
    by (do 2 apply reachable_step; apply reachable_init).
  split; [exact Hr|].
  exact (winner_is_checkWinner _ Hr).
Defined.

(** C10: the opponent only ever plays O.  [makeAIMove] schedules nothing
    when the outcome is final, when it is X's turn or when no cell is empty;
    the effect calls it only in AI mode, on O's turn and with the game
    going; the move it selects depends on the board alone, its first loop
    trying O and its second X; and every callback waiting in a reachable
    state, when it fires, writes an O. *)
Theorem opponent_plays_O :
  (forall g,
     terminal (winner g) \/ currentPlayer g = X \/
     (forall i, cell (board g) i <> null) ->
     makeAIMove g = None) /\
  (forall g callback,
     aiEffect g = Some callback ->
     gameMode g = ai /\ currentPlayer g = O /\ ~ terminal (winner g)) /\
  (forall g g' moves random,
     board g = board g' ->
     getBestMove g moves random = getBestMove g' moves random) /\
  (forall g random move,
     let b := board g in
     (first_legal b (completes b O) move ->
        getBestMove g (availableMoves b) random = Some move /\
        checkWinner (assign b move O) = player O) /\
     (none_legal b (completes b O) -> first_legal b (completes b X) move ->
        getBestMove g (availableMoves b) random = Some move /\
        checkWinner (assign b move X) = player X)) /\
  (forall w callback random,
     reachable w -> callback ∈ timeouts w ->
     exists g move upd,
       gameMode g = ai /\ currentPlayer g = O /\
       cell (board g) move = null /\
       callback random = Some upd /\
       forall prev, board (upd prev) = assign (board g) move O).
Proof.
  split; [|split; [|split; [|split]]].
  - intros g Hguard. apply makeAIMove_None.
    destruct Hguard as [Hterm | [HX | Hfull]]; [by left | by right; left |].
    right; right.
    destruct (availableMoves (board g)) as [|i rest] eqn:Hav; [done|].
    destruct (Hfull i). apply availableMoves_elem. rewrite Hav. by left.
  - intros g callback Heff.
    by destruct (aiEffect_Some _ _ Heff) as (? & ? & ? & _).
  - intros g g' moves random Hb. unfold getBestMove. by rewrite Hb.
  - intros g random move. simpl. split.
    + intros Hfirst. split.
      * by apply getBestMove_win.
      * destruct Hfirst as (_ & Htest & _).
        by apply bool_decide_eq_true in Htest.
    + intros HO Hfirst. split.
      * by apply getBestMove_block.
      * destruct Hfirst as (_ & Htest & _).
        by apply bool_decide_eq_true in Htest.
  - intros w callback random Hr Hin.
    destruct (reachable_inv w Hr) as [_ Hsched].
    rewrite Forall_forall in Hsched.
    destruct (scheduled_fires callback random (Hsched _ Hin))
      as (g & move & upd & Hmode & Hturn & Hnull & Hcb & Hupd).
    exists g, move, upd. repeat split; try done. apply Hupd.
Qed.

(** C6 fails on the component.  X plays cell 0 against the opponent and
    presses New Game, or switches the mode, before the opponent's timeout
    fires: the board is empty and one callback is waiting.  When it fires it
    is not dropped: it installs the board of the render it was scheduled in,
    X at 0 included, with the opponent's O at the centre. *)
Theorem stale_move_applied random :
  let stale := [X; null; null; null; O; null; null; null; null] in
  let w := run initialWorld resetWhileWaiting in
  let w' := run initialWorld switchWhileWaiting in
  (board (current w) = emptyBoard /\ length (timeouts w) = 1 /\
   board (current (step w (Timeout random))) = stale) /\
  (board (current w') = emptyBoard /\ length (timeouts w') = 1 /\
   gameMode (current (step w' (Timeout random))) = pvp /\
   board (current (step w' (Timeout random))) = stale).
Proof. simpl. by repeat split. Qed.

(** C3 fails on the component: a call of [makeMove] after the game is over
    is not always rejected.  Against the opponent, X plays 0, 1 and 3 and
    the opponent replies at 4 and 2; while the reply to X's third move
    waits, a click plays O at 6 and wins: the winner is O and its counter
    is 1.  The waiting callback then calls [makeMove] of the render it was
    scheduled in, whose guard reads that render's board and winner: the
    call is accepted, the same win is recorded again and the counter of O
    becomes 2.  The same happens after a win of X, where the callback
    brings the finished game back with no winner. *)
Theorem stale_move_after_game_over random :
  let w := run initialWorld overWhileWaiting in
  let w' := step w (Timeout random) in
  let v := run initialWorld winWhileWaiting in
  let v' := step v (Timeout random) in
  (terminal (winner (current w)) /\ winner (current w) = player O /\
   scores (current w) = mkScores 0 1 0 /\ length (timeouts w) = 1 /\
   current w' <> current w /\ scores (current w') = mkScores 0 2 0) /\
  (terminal (winner (current v)) /\ winner (current v) = player X /\
   board (current v) = [X; X; X; O; O; null; null; null; null] /\
   winner (current v') = player null /\
   board (current v') = [X; null; null; null; O; null; null; null; null]).
Proof.
  cbv zeta. split_and!; try (vm_compute; reflexivity).
  - right; left. vm_compute. reflexivity.
  - intros Heq. apply (f_equal scores) in Heq. vm_compute in Heq.
    discriminate.
  - left. vm_compute. reflexivity.
Qed.

(** C5 fails on the component: after a move of a waiting callback the turn
    is not always the one the claim gives.  In the same game, while the
    reply to X's third move waits, a click plays O at 5 and the turn passes
    to X.  The waiting callback then plays O at 6 and wins, yet the turn
    recorded with the final outcome is X, not the mover O: the updater
    keeps [prev.currentPlayer], the turn of the current state, while the
    mark comes from the render the callback was scheduled in.  And after
    New Game has given the turn to X, the stale callback's accepted move,
    which leaves the game going, leaves the turn with X. *)
Theorem stale_move_turn random :
  let w := run initialWorld movedWhileWaiting in
  let w' := step w (Timeout random) in
  let v := run initialWorld resetWhileWaiting in
  let v' := step v (Timeout random) in
  (winner (current w) = player null /\ currentPlayer (current w) = X /\
   cell (board (current w)) 6 = null /\
   cell (board (current w')) 6 = O /\ winner (current w') = player O /\
   currentPlayer (current w') = X) /\
  (currentPlayer (current v) = X /\ board (current v) = emptyBoard /\
   board (current v') <> board (current v) /\
   winner (current v') = player null /\
   currentPlayer (current v') = X).
Proof.
  cbv zeta. split_and!; try (vm_compute; reflexivity).
  intros Heq. vm_compute in Heq. discriminate.
Qed.

(** ** Scenarios of the specification *)

(** X at 0, 1, 2 against O at 4, 7: X wins, its counter becomes 1, and
    further clicks change nothing. *)
Example topRowGame_won :
  let s := foldl onClick initialState topRowGame in
  winner s = player X /\ scores s = mkScores 1 0 0 /\
  board s = [X; X; X; null; O; null; null; O; null] /\
  foldl onClick s [3; 5; 6; 8; 0] = s.
Proof. by repeat split. Qed.

Example tiedGame_tied :
  let s := foldl onClick initialState tiedGame in
  winner s = tie /\ scores s = mkScores 0 0 1 /\
  board s = [X; O; X; X; O; O; O; X; X].
Proof. by repeat split. Qed.

(** With only X at 0 on the board, the opponent takes the centre. *)
Example centre_taken random :
  getBestMove (aiToMove [X; null; null; null; null; null; null; null; null])
    (availableMoves [X; null; null; null; null; null; null; null; null])
    random = Some 4.
Proof. reflexivity. Qed.

(** The same stale callback brings a finished game back: after X has won
    and the win has been counted, the reply scheduled for X's first move
    fires and installs the board of that moment, with no winner. *)
Example stale_move_revives random :
  let w := run initialWorld winWhileWaiting in
  winner (current w) = player X /\ scores (current w) = mkScores 1 0 0 /\
  winner (current (step w (Timeout random))) = player null /\
  board (current (step w (Timeout random))) =
    [X; null; null; null; O; null; null; null; null] /\
  scores (current (step w (Timeout random))) = mkScores 1 0 0.
Proof. by repeat split. Qed.

(** ** Further properties: the move handler *)

Lemma cell_assign_ne board index j v :
  j <> index -> cell (assign board index v) j = cell board j.
Proof.
  intros Hne. unfold cell, assign. case_decide as Hlt.
  - by rewrite list_lookup_insert_ne.
  - destruct (decide (j < length board)) as [Hj | Hj].
    + by rewrite lookup_app_l.
    + rewrite (lookup_ge_None_2 board j) by lia.
      rewrite lookup_app_r by lia.
      destruct (decide (j - length board < index - length board)) as [Hp | Hp].
      * rewrite lookup_app_l by (rewrite length_replicate; lia).
        by rewrite lookup_replicate_2.
      * rewrite lookup_app_r by (rewrite length_replicate; lia).
        rewrite length_replicate.
        rewrite lookup_ge_None_2; [done|]. simpl. lia.
Qed.

(** The updater of an accepted [makeMove], field by field. *)
Lemma makeMove_updater g index upd :
  makeMove g index = Some upd ->
  let newBoard := assign (board g) index (currentPlayer g) in
  let w := checkWinner newBoard in
  forall prev,
    upd prev =
      {| board := newBoard;
         currentPlayer := if truthyW w then currentPlayer prev
                          else if bool_decide (currentPlayer g = X)
                               then O else X;
         winner := w;
         gameMode := gameMode prev;
         scores := if truthyW w then bump w (scores prev)
                   else scores prev |}.
Proof.
  unfold makeMove.
  destruct (truthy (cell (board g) index) || truthyW (winner g));
    [discriminate|].
  by intros [= <-] prev.
Qed.

Lemma makeMove_Some_guard g index upd :
  makeMove g index = Some upd ->
  ~ is_mark (cell (board g) index) /\ ~ terminal (winner g).
Proof.
  intros Hmove.
  assert (Hn : makeMove g index <> None) by (rewrite Hmove; discriminate).
  rewrite makeMove_None in Hn. tauto.
Qed.

(** A board whose evaluation is not final has no filled triple and at
    least one empty cell. *)
Lemma checkWinner_going board :
  ~ terminal (checkWinner board) ->
  (forall m, is_mark m -> ~ owns board m) /\ availableMoves board <> [].
Proof.
  intros Hgo.
  pose proof (scanLines_spec board WINNING_COMBINATIONS) as Hs.
  unfold checkWinner in Hgo.
  destruct (scanLines board WINNING_COMBINATIONS) as [p|] eqn:Hscan.
  - destruct Hgo. destruct Hs as [[-> | ->] _]; unfold terminal; auto.
  - split; [by apply unowned_all_iff|].
    destruct (forallb _ board) eqn:Hall; [destruct Hgo; unfold terminal; auto|].
    intros Hnil.
    assert (Hall' : forallb (fun c => negb (bool_decide (c = null))) board
                    = true); [|congruence].
    apply forallb_forall. intros c Hin.
    apply list_elem_of_In, list_elem_of_lookup in Hin as [i Hi].
    apply negb_true_iff, bool_decide_eq_false. intros ->.
    assert (Hel : i ∈ availableMoves board)
      by (apply availableMoves_elem; unfold cell; by rewrite Hi).
    rewrite Hnil in Hel. by apply elem_of_nil in Hel.
Qed.

(** After a mark is written on a board without a filled triple, only that
    mark can fill one. *)
Lemma owns_after_move board index v m :
  (forall m', is_mark m' -> ~ owns board m') ->
  is_mark m -> owns (assign board index v) m -> m = v.
Proof.
  intros Hnone Hm ([[a b] c] & Hin & Ha & Hb & Hc).
  destruct (decide (a = index)) as [-> | Hna];
    [by rewrite cell_assign_eq in Ha|].
  destruct (decide (b = index)) as [-> | Hnb];
    [by rewrite cell_assign_eq in Hb|].
  destruct (decide (c = index)) as [-> | Hnc];
    [by rewrite cell_assign_eq in Hc|].
  rewrite cell_assign_ne in Ha, Hb, Hc by done.
  destruct (Hnone m Hm). by exists (a, b, c).
Qed.

Lemma single_owner_after_move board index v :
  (forall m', is_mark m' -> ~ owns board m') ->
  single_owner (assign board index v).
Proof.
  intros Hnone [HX HO].
  apply (owns_after_move _ _ _ _ Hnone) in HX; [|by left].
  apply (owns_after_move _ _ _ _ Hnone) in HO; [|by right].
  congruence.
Qed.

(** [sound] is kept by every updater of [makeMove], also when it is applied
    to a state other than the one it was computed from. *)
Lemma sound_updater g prev index upd :
  sound g -> sound prev -> makeMove g index = Some upd -> sound (upd prev).
Proof.
  intros (Hg & Hgm & _) (_ & Hpm & _) Hmove.
  destruct (makeMove_Some_guard _ _ _ Hmove) as [_ Hgo].
  rewrite (makeMove_updater _ _ _ Hmove). unfold sound, consistent. simpl.
  split; [done|]. split.
  - destruct (truthyW _); [done|]. unfold is_mark.
    case_bool_decide; auto.
  - apply single_owner_after_move. rewrite Hg in Hgo.
    by apply checkWinner_going.
Qed.

Lemma sound_initial : sound initialState.
Proof.
  split; [reflexivity|]. split; [by left|].
  intros [(t & Hin & Hh) _]. unfold WINNING_COMBINATIONS in Hin.
  repeat (apply elem_of_cons in Hin as [-> | Hin];
          [cbv in Hh; intuition discriminate|]).
  by apply elem_of_nil in Hin.
Qed.

Lemma sound_reset s mode :
  sound s ->
  sound (resetGame s) /\ sound (resetScores s) /\
  sound (switchGameMode mode s).
Proof.
  intros Hs. destruct sound_initial as (Hc & Hm & Ho).
  repeat split; try exact Hc; try exact Hm; try exact Ho; apply Hs.
Qed.

(** ** Further properties: invariants of the transition system *)

(** A waiting callback, when it fires, runs [makeMove] of the render it was
    scheduled in, on a cell that was empty there, and is not rejected. *)
Lemma pending_fires (P : GameState -> Prop) callback random :
  pending_from P callback ->
  exists g move upd,
    P g /\ gameMode g = ai /\ currentPlayer g = O /\
    ~ terminal (winner g) /\ cell (board g) move = null /\
    makeMove g move = Some upd /\ callback random = Some upd.
Proof.
  intros (g & HP & Heff).
  destruct (aiEffect_Some _ _ Heff) as (Hmode & Hturn & Hgo & Hmk).
  destruct (makeAIMove_Some _ _ Hmk) as (_ & _ & Hav & ->).
  destruct (getBestMove_available g _ random Hav) as (move & Hbest & Hin).
  apply availableMoves_elem in Hin.
  destruct (makeMove g move) as [upd|] eqn:Hmove.
  - exists g, move, upd. rewrite Hbest. simpl. by repeat split.
  - apply makeMove_None in Hmove as [Hocc | Hterm]; [|done].
    rewrite Hin in Hocc. destruct Hocc; discriminate.
Qed.

Lemma run_snoc w events e : run w (events ++ [e]) = step (run w events) e.
Proof. unfold run. by rewrite foldl_app. Qed.

Lemma reachable_run w :
  reachable w <-> exists events, w = run initialWorld events.
Proof.
  split.
  - induction 1 as [|w e _ [events ->]]; [by exists []|].
    exists (events ++ [e]). by rewrite run_snoc.
  - intros [events ->]. induction events as [|e events IH] using rev_ind;
      [constructor|].
    rewrite run_snoc. by constructor.
Qed.

Section Invariant.

(** A property [P] of states and a restriction [E] on the events of a
    session: [P] holds initially and is kept by the three resets and by
    the updaters of [makeMove], whether [makeMove] is called by a click
    that [E] allows or by a callback on a cell empty in its render. *)
Variable P : GameState -> Prop.
Variable E : Event -> Prop.

Hypothesis P_initial : P initialState.
Hypothesis P_resetGame : forall s, P s -> P (resetGame s).
Hypothesis P_resetScores : forall s, P s -> P (resetScores s).
Hypothesis P_switch :
  forall mode s, E (SwitchMode mode) -> P s -> P (switchGameMode mode s).
Hypothesis P_move :
  forall g prev index upd,
    P g -> P prev ->
    E (Click index) \/ cell (board g) index = null ->
    makeMove g index = Some upd -> P (upd prev).

Lemma render_invariant pending old new :
  P new -> Forall (pending_from P) pending ->
  P (current (render pending old new)) /\
  Forall (pending_from P) (timeouts (render pending old new)).
Proof.
  intros Hnew Hp. split; [done|]. unfold render. simpl.
  apply Forall_app. split; [done|].
  case_bool_decide; [constructor|].
  destruct (aiEffect new) as [cb|] eqn:Heff; simpl; [|constructor].
  constructor; [by exists new|constructor].
Qed.

Lemma step_invariant w e :
  E e -> P (current w) -> Forall (pending_from P) (timeouts w) ->
  P (current (step w e)) /\ Forall (pending_from P) (timeouts (step w e)).
Proof.
  intros He Hc Ht. destruct e as [index| | |mode|random]; simpl.
  - apply render_invariant; [|done]. unfold onClick.
    destruct (makeMove (current w) index) as [upd|] eqn:Hm; simpl; [|done].
    eapply P_move; eauto.
  - apply render_invariant; auto.
  - apply render_invariant; auto.
  - apply render_invariant; auto.
  - destruct (timeouts w) as [|callback rest] eqn:Hq; [by rewrite Hq|].
    apply Forall_cons in Ht as [Hcb Hrest].
    apply render_invariant; [|done].
    destruct (pending_fires P callback random Hcb)
      as (g & move & upd & Hg & _ & _ & _ & Hnull & Hmove & ->).
    simpl. eapply P_move; eauto.
Qed.

Lemma run_invariant events :
  Forall E events ->
  P (current (run initialWorld events)) /\
  Forall (pending_from P) (timeouts (run initialWorld events)).
Proof.
  induction events as [|e events IH] using rev_ind; intros Hev.
  - split; [exact P_initial|]. simpl. constructor.
  - apply Forall_app in Hev as [Hev He].
    apply Forall_cons in He as [He _].
    rewrite run_snoc. destruct (IH Hev) as [Hc Ht].
    by apply step_invariant.
Qed.

End Invariant.

Lemma reachable_sound w :
  reachable w ->
  sound (current w) /\ Forall (pending_from sound) (timeouts w).
Proof.
  intros [events ->]%reachable_run.
  apply (run_invariant sound (fun _ => True)).
  - exact sound_initial.
  - intros s Hs. by apply (sound_reset s pvp).
  - intros s Hs. by apply (sound_reset s pvp).
  - intros mode s _ Hs. by apply (sound_reset s mode).
  - intros g prev index upd Hg Hprev _ Hmove.
    exact (sound_updater g prev index upd Hg Hprev Hmove).
  - by apply Forall_forall.
Qed.

(** ** Further properties: what every reachable state satisfies *)

Lemma run_is_reachable events : reachable (run initialWorld events).
Proof. apply reachable_run. by exists events. Qed.

(** X1: in every reachable state X and O do not both fill a winning triple,
    and the recorded winner is a mark [m] exactly when [m] fills a winning
    triple of the recorded board. *)
Theorem winner_iff_owns w :
  reachable w ->
  single_owner (board (current w)) /\
  forall m, is_mark m ->
    (winner (current w) = player m <-> owns (board (current w)) m).
Proof.
  intros Hr. destruct (reachable_sound w Hr) as [(Hc & _ & Hone) _].
  split; [exact Hone|]. intros m Hm. rewrite Hc. split.
  - intros Hw. by apply first_owner_owns, checkWinner_mark_iff.
  - intros Hown.
    destruct (checkWinner_owned _ _ Hm Hown) as (p & Hp & Hw & Hfirst).
    apply first_owner_owns in Hfirst. rewrite Hw. f_equal.
    destruct Hm as [-> | ->], Hp as [-> | ->]; try done;
      exfalso; apply Hone; by split.
Qed.

Lemma winner_iff_owns_witness :
  reachable (run initialWorld topRowSession) /\
  (winner (current (run initialWorld topRowSession)) = player X <->
   owns (board (current (run initialWorld topRowSession))) X).
Proof.
  assert (Hr : reachable (run initialWorld topRowSession))
    by apply run_is_reachable.
  split; [exact Hr|].
  exact (proj2 (winner_iff_owns _ Hr) X (or_introl eq_refl)).
Defined.

(** X2: in a reachable state an accepted click can only make the mover
    win: afterwards the recorded winner is the mark that moved, a tie, or
    none, and the counter of the other mark is as before. *)
Theorem only_the_mover_wins w index :
  reachable w ->
  makeMove (current w) index <> None ->
  let s := current w in
  let s' := onClick s index in
  (winner s' = player (currentPlayer s) \/ winner s' = tie \/
   winner s' = player null) /\
  (currentPlayer s = X -> scoreO (scores s') = scoreO (scores s)) /\
  (currentPlayer s = O -> scoreX (scores s') = scoreX (scores s)).
Proof.
  intros Hr Hacc. simpl.
  destruct (reachable_sound w Hr) as [(Hc & Hm & _) _].
  assert (Hgo : ~ terminal (checkWinner (board (current w)))).
  { rewrite <- Hc. rewrite makeMove_None in Hacc. tauto. }
  apply checkWinner_going in Hgo as [Hnone _].
  rewrite (onClick_accepted _ _ Hacc). simpl.
  set (newBoard := assign (board (current w)) index (currentPlayer (current w))).
  assert (Hwin : forall m, is_mark m -> checkWinner newBoard = player m ->
                           m = currentPlayer (current w)).
  { intros m Hmm Hw. apply (owns_after_move _ index _ m Hnone Hmm).
    by apply first_owner_owns, checkWinner_mark_iff. }
  destruct (checkWinner_range newBoard) as [Hw | [Hw | [Hw | Hw]]].
  - pose proof (Hwin X (or_introl eq_refl) Hw) as Hmover.
    rewrite Hw, <- Hmover. simpl. split; [by left|]. split; [done|].
    intros HO. congruence.
  - pose proof (Hwin O (or_intror eq_refl) Hw) as Hmover.
    rewrite Hw, <- Hmover. simpl. split; [by left|]. split; [|done].
    intros HX. congruence.
  - rewrite Hw. simpl. auto.
  - rewrite Hw. simpl. auto.
Qed.

Lemma only_the_mover_wins_witness :
  reachable (run initialWorld [Click 0; Click 4; Click 1; Click 7]) /\
  makeMove (current (run initialWorld [Click 0; Click 4; Click 1; Click 7])) 2
    <> None /\
  winner (onClick
            (current (run initialWorld [Click 0; Click 4; Click 1; Click 7]))
            2) = player X.
Proof.
  assert (Hr : reachable (run initialWorld [Click 0; Click 4; Click 1; Click 7]))
    by apply run_is_reachable.
  assert (Hacc : makeMove (current (run initialWorld
                   [Click 0; Click 4; Click 1; Click 7])) 2 <> None)
    by (cbv; discriminate).
  split; [exact Hr|]. split; [exact Hacc|].
  destruct (proj1 (only_the_mover_wins _ 2 Hr Hacc)) as [Hw | [Hw | Hw]];
    [exact Hw | discriminate Hw | discriminate Hw].
Defined.

(** X3: in every reachable state the turn belongs to X or to O: the [null]
    that the type of [currentPlayer] allows never occurs, also after a
    stale callback. *)
Theorem turn_is_a_mark w :
  reachable w -> is_mark (currentPlayer (current w)).
Proof. intros Hr. by destruct (reachable_sound w Hr) as [(_ & Hm & _) _]. Qed.

Lemma turn_is_a_mark_witness :
  reachable (step (run initialWorld resetWhileWaiting) (Timeout firstDraw)) /\
  is_mark (currentPlayer
    (current (step (run initialWorld resetWhileWaiting) (Timeout firstDraw)))).
Proof.
  assert (Hr : reachable
            (step (run initialWorld resetWhileWaiting) (Timeout firstDraw)))
    by (apply reachable_step, run_is_reachable).
  split; [exact Hr|]. exact (turn_is_a_mark _ Hr).
Defined.

Lemma board9_assign board index v :
  board9 board -> index < 9 -> v <> undefined ->
  board9 (assign board index v).
Proof.
  intros [Hlen Hdef] Hlt Hv. unfold assign.
  rewrite decide_True by lia. split.
  - by rewrite length_insert.
  - by apply Forall_insert.
Qed.

Lemma board9_empty : board9 emptyBoard.
Proof. board9_by_computation. Qed.

(** X4: as long as the clicks are on the nine buttons, the board always
    has nine cells, none of them [undefined]; the opponent's callbacks,
    stale or not, keep it so. *)
Theorem board_stays_nine events :
  Forall on_board events ->
  board9 (board (current (run initialWorld events))).
Proof.
  intros Hev.
  apply (run_invariant (fun s => sound s /\ board9 (board s)) on_board);
    [| | | | |exact Hev].
  - split; [exact sound_initial|exact board9_empty].
  - intros s [Hs _]. split; [by apply (sound_reset s pvp)|exact board9_empty].
  - intros s [Hs Hb]. split; [by apply (sound_reset s pvp)|exact Hb].
  - intros mode s _ [Hs _].
    split; [by apply (sound_reset s mode)|exact board9_empty].
  - intros g prev index upd [Hg Hb] [Hprev _] Hin Hmove.
    split; [exact (sound_updater g prev index upd Hg Hprev Hmove)|].
    rewrite (makeMove_updater _ _ _ Hmove). simpl.
    destruct Hg as (_ & Hm & _). apply board9_assign; [done| |].
    + destruct Hin as [Hin | Hnull]; [exact Hin|].
      destruct Hb as [Hlen _]. rewrite <- Hlen.
      by apply availableMoves_lt, availableMoves_elem.
    + destruct Hm as [-> | ->]; discriminate.
Qed.

Lemma board_stays_nine_witness :
  Forall on_board replySession /\
  board9 (board (current (run initialWorld replySession))).
Proof.
  assert (Hev : Forall on_board replySession).
  { unfold replySession. repeat constructor. }
  split; [exact Hev|]. exact (board_stays_nine replySession Hev).
Defined.

(** ** Further properties: what one event can change *)

(** The state after an event: the handler's result, or for a timeout the
    updater of a [makeMove] run in the render the callback was scheduled
    in. *)
Lemma step_current w e :
  reachable w ->
  match e with
  | Click index => current (step w e) = onClick (current w) index
  | NewGame => current (step w e) = resetGame (current w)
  | ResetScores => current (step w e) = resetScores (current w)
  | SwitchMode mode => current (step w e) = switchGameMode mode (current w)
  | Timeout _ =>
      current (step w e) = current w \/
      exists g move upd,
        sound g /\ gameMode g = ai /\ currentPlayer g = O /\
        ~ terminal (winner g) /\ cell (board g) move = null /\
        makeMove g move = Some upd /\
        current (step w e) = upd (current w)
  end.
Proof.
  intros Hr. destruct e as [index| | |mode|random]; try reflexivity.
  simpl. destruct (reachable_sound w Hr) as [_ Ht].
  destruct (timeouts w) as [|callback rest]; [by left|].
  apply Forall_cons in Ht as [Hcb _]. right.
  destruct (pending_fires sound callback random Hcb)
    as (g & move & upd & Hg & Hmode & Hturn & Hgo & Hnull & Hmove & ->).
  exists g, move, upd. by split_and!.
Qed.

Lemma bump_le w sc :
  scoreX sc <= scoreX (bump w sc) /\ scoreO sc <= scoreO (bump w sc) /\
  ties sc <= ties (bump w sc) /\ total (bump w sc) <= total sc + 1.
Proof.
  unfold total. destruct w as [[| | |]|]; simpl; lia.
Qed.

Lemma updater_scores g index upd prev :
  makeMove g index = Some upd ->
  scoreX (scores prev) <= scoreX (scores (upd prev)) /\
  scoreO (scores prev) <= scoreO (scores (upd prev)) /\
  ties (scores prev) <= ties (scores (upd prev)) /\
  total (scores (upd prev)) <= total (scores prev) + 1.
Proof.
  intros Hmove. rewrite (makeMove_updater _ _ _ Hmove). simpl.
  destruct (truthyW _); [apply bump_le|lia].
Qed.

(** X5: apart from Reset Scores, no event of a reachable state lowers a
    counter, and none adds more than one game to the three together. *)
Theorem scores_only_grow w e :
  reachable w -> e <> ResetScores ->
  let before := scores (current w) in
  let after := scores (current (step w e)) in
  scoreX before <= scoreX after /\ scoreO before <= scoreO after /\
  ties before <= ties after /\ total after <= total before + 1.
Proof.
  intros Hr He. simpl. pose proof (step_current w e Hr) as Hstep.
  destruct e as [index| | |mode|random]; try done.
  - rewrite Hstep. unfold onClick.
    destruct (makeMove (current w) index) as [upd|] eqn:Hmove; simpl;
      [by eapply updater_scores|lia].
  - rewrite Hstep. simpl. lia.
  - rewrite Hstep. simpl. lia.
  - destruct Hstep as [-> | (g & move & upd & _ & _ & _ & _ & _ & Hmove & ->)];
      [lia|by eapply updater_scores].
Qed.

Lemma scores_only_grow_witness :
  reachable (run initialWorld [Click 0; Click 4; Click 1; Click 7]) /\
  Click 2 <> ResetScores /\
  total (scores (current
    (step (run initialWorld [Click 0; Click 4; Click 1; Click 7]) (Click 2))))
  <= total (scores (current
    (run initialWorld [Click 0; Click 4; Click 1; Click 7]))) + 1.
Proof.
  assert (Hr : reachable (run initialWorld [Click 0; Click 4; Click 1; Click 7]))
    by apply run_is_reachable.
  assert (He : Click 2 <> ResetScores) by discriminate.
  split; [exact Hr|]. split; [exact He|].
  exact (proj2 (proj2 (proj2 (scores_only_grow _ _ Hr He)))).
Defined.

(** X6: in a reachable state only the mode buttons change the mode: a
    click, New Game, Reset Scores and the opponent's callback, stale or
    not, leave it as it is. *)
Theorem mode_changes_by_switch_only w e :
  reachable w -> (forall mode, e <> SwitchMode mode) ->
  gameMode (current (step w e)) = gameMode (current w).
Proof.
  intros Hr He. pose proof (step_current w e Hr) as Hstep.
  destruct e as [index| | |mode|random].
  - rewrite Hstep. unfold onClick.
    destruct (makeMove (current w) index) as [upd|] eqn:Hmove; simpl; [|done].
    by rewrite (makeMove_updater _ _ _ Hmove).
  - by rewrite Hstep.
  - by rewrite Hstep.
  - by destruct (He mode).
  - destruct Hstep as [-> | (g & move & upd & _ & _ & _ & _ & _ & Hmove & ->)];
      [done|].
    by rewrite (makeMove_updater _ _ _ Hmove).
Qed.

Lemma mode_changes_by_switch_only_witness :
  reachable (run initialWorld switchWhileWaiting) /\
  (forall mode, Timeout firstDraw <> SwitchMode mode) /\
  gameMode (current (step (run initialWorld switchWhileWaiting)
                          (Timeout firstDraw))) = pvp.
Proof.
  assert (Hr : reachable (run initialWorld switchWhileWaiting))
    by apply run_is_reachable.
  assert (He : forall mode, Timeout firstDraw <> SwitchMode mode)
    by (intros mode; discriminate).
  split; [exact Hr|]. split; [exact He|].
  exact (mode_changes_by_switch_only _ _ Hr He).
Defined.

Lemma aiEffect_X_to_move s : currentPlayer s = X -> aiEffect s = None.
Proof.
  intros HX. unfold aiEffect. rewrite HX.
  by rewrite (bool_decide_eq_false_2 (X = O)), andb_false_r by discriminate.
Qed.

Lemma aiEffect_terminal s : terminal (winner s) -> aiEffect s = None.
Proof.
  intros Hterm%truthyW_terminal. unfold aiEffect. rewrite Hterm.
  by rewrite andb_false_r.
Qed.

Lemma render_no_effect pending old new :
  aiEffect new = None -> timeouts (render pending old new) = pending.
Proof.
  intros Heff. unfold render. simpl. rewrite Heff. simpl.
  case_bool_decide; apply app_nil_r.
Qed.

(** X7: only a click can schedule a callback, and it schedules at most
    one.  New Game, Reset Scores and the mode buttons leave the waiting
    callbacks as they are (none is cancelled), and in a reachable state a
    callback that fires is removed and schedules no other. *)
Theorem who_schedules w e :
  reachable w ->
  match e with
  | Click _ =>
      timeouts (step w e) = timeouts w \/
      exists callback, timeouts (step w e) = timeouts w ++ [callback]
  | Timeout _ => timeouts (step w e) = tail (timeouts w)
  | _ => timeouts (step w e) = timeouts w
  end.
Proof.
  intros Hr. destruct e as [index| | |mode|random]; simpl.
  - unfold render. simpl. case_bool_decide; [left; apply app_nil_r|].
    destruct (aiEffect _) as [cb|]; simpl; [right; by exists cb|].
    left; apply app_nil_r.
  - by apply render_no_effect, aiEffect_X_to_move.
  - unfold render. simpl. rewrite bool_decide_eq_true_2 by done.
    apply app_nil_r.
  - by apply render_no_effect, aiEffect_X_to_move.
  - destruct (reachable_sound w Hr) as [_ Ht].
    destruct (timeouts w) as [|callback rest] eqn:Hq; [by rewrite Hq|].
    apply Forall_cons in Ht as [Hcb _]. simpl.
    destruct (pending_fires sound callback random Hcb)
      as (g & move & upd & _ & _ & Hturn & _ & _ & Hmove & ->).
    apply render_no_effect. simpl.
    rewrite (makeMove_updater _ _ _ Hmove).
    destruct (truthyW (checkWinner _)) eqn:Hw.
    + apply aiEffect_terminal. simpl. by apply truthyW_terminal.
    + apply aiEffect_X_to_move. simpl. rewrite Hturn.
      by rewrite bool_decide_eq_false_2.
Qed.

Lemma who_schedules_witness :
  reachable (run initialWorld [SwitchMode ai; Click 0]) /\
  timeouts (step (run initialWorld [SwitchMode ai; Click 0])
                 (Timeout firstDraw)) =
  tail (timeouts (run initialWorld [SwitchMode ai; Click 0])).
Proof.
  assert (Hr : reachable (run initialWorld [SwitchMode ai; Click 0]))
    by apply run_is_reachable.
  split; [exact Hr|].
  exact (who_schedules _ (Timeout firstDraw) Hr).
Defined.

(** X8: in a session whose events never select the game against the
    opponent, the mode stays [pvp] and no callback is ever scheduled: every
    mark on the board comes from a click. *)
Theorem pvp_never_schedules events :
  Forall keeps_pvp events ->
  gameMode (current (run initialWorld events)) = pvp /\
  timeouts (run initialWorld events) = [].
Proof.
  intros Hev.
  destruct (run_invariant (fun s => gameMode s = pvp) keeps_pvp)
    with (events := events) as [Hmode Ht]; try done.
  - intros mode s Hkeep _. simpl. destruct mode; [done|]. by destruct Hkeep.
  - intros g prev index upd _ Hprev _ Hmove.
    by rewrite (makeMove_updater _ _ _ Hmove).
  - split; [exact Hmode|].
    destruct (timeouts (run initialWorld events)) as [|callback rest];
      [done|].
    apply Forall_cons in Ht as [(g & Hpvp & Heff) _].
    apply aiEffect_Some in Heff as (Hai & _). congruence.
Qed.

Lemma pvp_never_schedules_witness :
  Forall keeps_pvp (SwitchMode pvp :: topRowSession) /\
  timeouts (run initialWorld (SwitchMode pvp :: topRowSession)) = [].
Proof.
  assert (Hev : Forall keeps_pvp (SwitchMode pvp :: topRowSession)).
  { unfold topRowSession, topRowGame. simpl.
    repeat (constructor; [discriminate|]). constructor. }
  split; [exact Hev|].
  exact (proj2 (pvp_never_schedules _ Hev)).
Defined.

(** X9: the opponent's reply when nothing intervenes.  In the game against
    the opponent, an accepted click of X that leaves the game going
    schedules exactly one callback; if it fires next, it writes one O on a
    cell that was empty, changes no other cell, schedules nothing, and
    hands the turn back to X unless its move ends the game. *)
Theorem reply_in_turn s index random :
  gameMode s = ai -> currentPlayer s = X ->
  makeMove s index <> None ->
  winner (onClick s index) = player null ->
  let w1 := step {| current := s; timeouts := [] |} (Click index) in
  let w2 := step w1 (Timeout random) in
  length (timeouts w1) = 1 /\
  timeouts w2 = [] /\
  exists move,
    cell (board (current w1)) move = null /\
    board (current w2) = assign (board (current w1)) move O /\
    (forall j, j <> move ->
       cell (board (current w2)) j = cell (board (current w1)) j) /\
    (winner (current w2) = player null -> currentPlayer (current w2) = X) /\
    (terminal (winner (current w2)) -> currentPlayer (current w2) = O).
Proof.
  intros Hmode HX Hacc Hgo. cbv zeta.
  assert (Heq := onClick_accepted s index Hacc). simpl in Heq.
  assert (Hw : checkWinner (assign (board s) index (currentPlayer s))
               = player null) by (rewrite Heq in Hgo; exact Hgo).
  assert (Hs' : gameMode (onClick s index) = ai /\
                currentPlayer (onClick s index) = O /\
                winner (onClick s index) =
                  checkWinner (board (onClick s index))).
  { rewrite Heq. simpl. rewrite Hw. simpl. rewrite HX.
    by rewrite bool_decide_eq_true_2. }
  clear Heq Hw. set (s' := onClick s index) in *.
  destruct Hs' as (Hmode' & Hturn' & Hcons').
  assert (Hav : availableMoves (board s') <> []).
  { apply checkWinner_going. rewrite <- Hcons', Hgo.
    unfold terminal. intuition discriminate. }
  assert (Hdeps : deps s' <> deps s).
  { unfold deps. rewrite Hturn', HX. intros [=]. }
  destruct (aiEffect s') as [callback|] eqn:Heff.
  2:{ exfalso. unfold aiEffect in Heff.
      rewrite Hmode', Hturn', Hgo in Heff. simpl in Heff.
      apply makeAIMove_None in Heff as [Ht | [Hx | Hn]].
      - rewrite Hgo in Ht. unfold terminal in Ht. intuition discriminate.
      - congruence.
      - done. }
  assert (Hw1 : step {| current := s; timeouts := [] |} (Click index) =
                {| current := s'; timeouts := [callback] |}).
  { cbn [step current timeouts]. fold s'. unfold render.
    by rewrite bool_decide_eq_false_2, Heff. }
  rewrite Hw1. cbn [step current timeouts].
  destruct (pending_fires (fun g => g = s') callback random)
    as (g & move & upd & -> & _ & _ & _ & Hnull & Hmove & ->);
    [by exists s'|].
  cbn [setGameState].
  pose proof (makeMove_updater _ _ _ Hmove) as Hupd. cbv zeta in Hupd.
  split; [done|]. split.
  - apply render_no_effect. rewrite Hupd.
    destruct (truthyW (checkWinner _)) eqn:Hw.
    + apply aiEffect_terminal. simpl. by apply truthyW_terminal.
    + apply aiEffect_X_to_move. simpl. rewrite Hturn'.
      by rewrite bool_decide_eq_false_2.
  - exists move. cbn [render current]. rewrite Hupd.
    cbn [board winner currentPlayer]. rewrite Hturn'. split; [done|]. split; [done|]. split.
    + intros j Hj. by apply cell_assign_ne.
    + split.
      * intros ->. by simpl.
      * intros Hterm%truthyW_terminal. by rewrite Hterm.
Qed.

Lemma reply_in_turn_witness :
  gameMode (switchGameMode ai initialState) = ai /\
  currentPlayer (switchGameMode ai initialState) = X /\
  makeMove (switchGameMode ai initialState) 0 <> None /\
  winner (onClick (switchGameMode ai initialState) 0) = player null /\
  timeouts (step (step {| current := switchGameMode ai initialState;
                          timeouts := [] |} (Click 0))
                 (Timeout firstDraw)) = [].
Proof.
  assert (Hacc : makeMove (switchGameMode ai initialState) 0 <> None)
    by (cbv; discriminate).
  split; [reflexivity|]. split; [reflexivity|]. split; [exact Hacc|].
  split; [reflexivity|].
  exact (proj1 (proj2 (reply_in_turn (switchGameMode ai initialState) 0
                         firstDraw eq_refl eq_refl Hacc eq_refl))).
Defined.

(** X10: on a state whose recorded outcome is the evaluator's answer, the
    third guard of [makeAIMove] never fires: a game still going always has
    an empty cell, so [makeAIMove] schedules a callback exactly when the
    outcome is not final and it is not X's turn. *)
Theorem makeAIMove_guard g :
  consistent g ->
  (~ terminal (winner g) -> availableMoves (board g) <> []) /\
  (makeAIMove g = None <-> terminal (winner g) \/ currentPlayer g = X).
Proof.
  intros Hc.
  assert (Hav : ~ terminal (winner g) -> availableMoves (board g) <> []).
  { intros Hgo. apply checkWinner_going. by rewrite <- Hc. }
  split; [exact Hav|]. rewrite makeAIMove_None. split.
  - intros [Ht | [Hx | Hn]]; [by left | by right |].
    destruct (decide (terminal (winner g))) as [Ht | Hgo]; [by left|].
    by destruct (Hav Hgo).
  - intros [Ht | Hx]; auto.
Qed.

Lemma makeAIMove_guard_witness :
  consistent (aiToMove winOrBlock) /\
  availableMoves (board (aiToMove winOrBlock)) <> [].
Proof.
  assert (Hc : consistent (aiToMove winOrBlock)) by reflexivity.
  assert (Hgo : ~ terminal (winner (aiToMove winOrBlock)))
    by (cbv; intuition discriminate).
  split; [exact Hc|].
  exact (proj1 (makeAIMove_guard _ Hc) Hgo).
Defined.

(** ** Further properties: the opponent's choice *)

Lemma find_exists (test : nat -> bool) (l : list nat) :
  (exists m, m ∈ l /\ test m = true) ->
  exists move, find test l = Some move /\ move ∈ l /\ test move = true.
Proof.
  intros (m & Hin & Htest).
  destruct (find test l) as [move|] eqn:Hfind.
  - exists move. destruct (find_some _ _ Hfind) as [Hin' Htest'].
    split; [done|]. split; [by apply list_elem_of_In|done].
  - apply list_elem_of_In in Hin.
    rewrite (find_none _ _ Hfind m Hin) in Htest. discriminate.
Qed.

(** X11: the opponent never passes over a win, and blocks when it cannot
    win.  If some legal move makes [checkWinner] answer O, the selected
    move does, and the [makeMove] of an O to move records O as the winner;
    if none does and some legal move would make it answer X, the selected
    move is such a cell. *)
Theorem takes_win_else_blocks g random :
  let b := board g in
  let best := getBestMove g (availableMoves b) random in
  ((exists m, m ∈ availableMoves b /\ completes b O m = true) ->
     exists move,
       best = Some move /\ cell b move = null /\
       checkWinner (assign b move O) = player O /\
       (currentPlayer g = O -> ~ terminal (winner g) ->
          exists upd, makeMove g move = Some upd /\
                      forall prev, winner (upd prev) = player O)) /\
  (none_legal b (completes b O) ->
   (exists m, m ∈ availableMoves b /\ completes b X m = true) ->
     exists move,
       best = Some move /\ cell b move = null /\
       checkWinner (assign b move X) = player X).
Proof.
  simpl. split.
  - intros Hex. destruct (find_exists _ _ Hex) as (move & Hfind & Hin & Htest).
    exists move. apply availableMoves_elem in Hin.
    apply bool_decide_eq_true in Htest.
    split; [unfold getBestMove; by rewrite Hfind|].
    split; [done|]. split; [done|].
    intros Hturn Hgo.
    destruct (makeMove g move) as [upd|] eqn:Hmove.
    + exists upd. split; [done|]. intros prev.
      rewrite (makeMove_updater _ _ _ Hmove). simpl. by rewrite Hturn.
    + apply makeMove_None in Hmove as [Hocc | Hterm]; [|done].
      rewrite Hin in Hocc. destruct Hocc; discriminate.
  - intros HO Hex.
    destruct (find_exists _ _ Hex) as (move & Hfind & Hin & Htest).
    exists move. apply availableMoves_elem in Hin.
    apply bool_decide_eq_true in Htest.
    apply find_none_legal in HO.
    split; [unfold getBestMove; by rewrite HO, Hfind|]. by split.
Qed.

Lemma takes_win_else_blocks_witness :
  (exists m, m ∈ availableMoves winOrBlock /\
             completes winOrBlock O m = true) /\
  exists move,
    getBestMove (aiToMove winOrBlock) (availableMoves winOrBlock) lastDraw
      = Some move /\
    checkWinner (assign winOrBlock move O) = player O.
Proof.
  assert (Hex : exists m, m ∈ availableMoves (board (aiToMove winOrBlock)) /\
                  completes (board (aiToMove winOrBlock)) O m = true).
  { exists 2. split; [|reflexivity]. by apply availableMoves_elem. }
  split; [exact Hex|].
  destruct (proj1 (takes_win_else_blocks (aiToMove winOrBlock) lastDraw) Hex)
    as (move & Hbest & _ & Hwin & _).
  exists move. split; [exact Hbest|exact Hwin].
Defined.

(** X12: the draw matters only in the last two branches: when some legal
    move wins for O, or some legal move would win for X, or the centre is
    empty, [getBestMove] returns the same move for every draw. *)
Theorem draw_is_irrelevant g random random' :
  let b := board g in
  (exists m, m ∈ availableMoves b /\ completes b O m = true) \/
  (exists m, m ∈ availableMoves b /\ completes b X m = true) \/
  cell b 4 = null ->
  getBestMove g (availableMoves b) random =
  getBestMove g (availableMoves b) random'.
Proof.
  simpl. intros Hcase. unfold getBestMove.
  destruct (find (completes (board g) O) _) as [m|] eqn:HO; [done|].
  destruct (find (completes (board g) X) _) as [m|] eqn:HX; [done|].
  destruct Hcase as [Hex | [Hex | H4]].
  - destruct (find_exists _ _ Hex) as (move & Hfind & _). congruence.
  - destruct (find_exists _ _ Hex) as (move & Hfind & _). congruence.
  - apply includes_legal in H4. by rewrite H4.
Qed.

Lemma draw_is_irrelevant_witness :
  cell blockOrCenter 4 = null /\
  getBestMove (aiToMove blockOrCenter) (availableMoves blockOrCenter) firstDraw
  = getBestMove (aiToMove blockOrCenter) (availableMoves blockOrCenter)
      lastDraw.
Proof.
  assert (H4 : cell (board (aiToMove blockOrCenter)) 4 = null) by reflexivity.
  split; [exact H4|].
  exact (draw_is_irrelevant (aiToMove blockOrCenter) firstDraw lastDraw
           (or_intror (or_intror H4))).
Defined.

Lemma freeAt_sorted k board :
  StronglySorted lt (omap id (imap (freeAt k) board)).
Proof.
  revert k. induction board as [|c rest IH]; intros k; [constructor|].
  rewrite freeAt_cons. case_bool_decide; simpl; [|apply IH].
  constructor; [apply IH|]. apply Forall_forall. intros i Hin.
  apply freeAt_elem in Hin. lia.
Qed.

Lemma sorted_NoDup (l : list nat) : StronglySorted lt l -> NoDup l.
Proof.
  induction 1 as [|a l _ IH Hall]; constructor; [|done].
  intros Hin. rewrite Forall_forall in Hall. specialize (Hall a Hin). lia.
Qed.

(** X13: [availableMoves] lists the indices of the [null] cells of the
    array, and only those, each once and in ascending order. *)
Theorem availableMoves_ascending (board : Board) :
  StronglySorted lt (availableMoves board) /\
  NoDup (availableMoves board) /\
  forall i, i ∈ availableMoves board <->
            i < length board /\ board !! i = Some null.
Proof.
  assert (Hs : StronglySorted lt (availableMoves board))
    by (rewrite availableMoves_from; apply freeAt_sorted).
  split; [exact Hs|]. split; [by apply sorted_NoDup|].
  intros i. rewrite availableMoves_from, freeAt_elem, Nat.sub_0_r. split.
  - intros [_ Hi]. split; [by eapply lookup_lt_Some|done].
  - intros [_ Hi]. split; [lia|done].
Qed.

(** X14: a board on which no move is legal is always evaluated as final,
    and a tie is only ever answered for a board on which no move is legal:
    the game cannot be left going with nothing to play. *)
Theorem no_move_means_final (board : Board) :
  (availableMoves board = [] -> terminal (checkWinner board)) /\
  (checkWinner board = tie -> availableMoves board = []).
Proof.
  split.
  - intros Hnil. destruct (decide (terminal (checkWinner board))) as [|Hgo];
      [done|].
    by destruct (proj2 (checkWinner_going board Hgo)).
  - unfold checkWinner.
    destruct (scanLines board WINNING_COMBINATIONS); [discriminate|].
    destruct (forallb _ board) eqn:Hall; [|discriminate]. intros _.
    destruct (availableMoves board) as [|i rest] eqn:Hav; [done|].
    assert (Hin : i ∈ availableMoves board) by (rewrite Hav; by left).
    rewrite availableMoves_from, freeAt_elem, Nat.sub_0_r in Hin.
    destruct Hin as [_ Hi]. rewrite forallb_forall in Hall.
    specialize (Hall null (proj1 (list_elem_of_In _ _)
                             (list_elem_of_lookup_2 _ _ _ Hi))).
    by rewrite bool_decide_eq_true_2 in Hall.
Qed.

Lemma no_move_means_final_witness :
  checkWinner (board (foldl onClick initialState tiedGame)) = tie /\
  availableMoves (board (foldl onClick initialState tiedGame)) = [].
Proof.
  assert (Ht : checkWinner (board (foldl onClick initialState tiedGame)) = tie)
    by reflexivity.
  split; [exact Ht|].
  exact (proj2 (no_move_means_final _) Ht).
Defined.

(** ** Further properties: the length of a game *)

Lemma freeAt_length k board :
  length (omap id (imap (freeAt k) board)) =
  length (filter (fun c => c = null) board).
Proof.
  revert k. induction board as [|c rest IH]; intros k; [done|].
  rewrite freeAt_cons, length_app, IH, filter_cons.
  case_bool_decide; by case_decide.
Qed.

Lemma availableMoves_length board :
  length (availableMoves board) = length (filter (fun c => c = null) board).
Proof. rewrite availableMoves_from. apply freeAt_length. Qed.

Lemma filter_null_insert (board : Board) index v :
  board !! index = Some null -> v <> null ->
  length (filter (fun c => c = null) (<[index := v]> board)) + 1 =
  length (filter (fun c => c = null) board).
Proof.
  revert index. induction board as [|c rest IH]; intros index Hl Hv;
    [discriminate|].
  destruct index as [|index]; simpl in *.
  - injection Hl as ->. rewrite !filter_cons.
    rewrite decide_False by done. rewrite decide_True by done. simpl. lia.
  - rewrite !filter_cons. case_decide; simpl; rewrite <- (IH index); auto.
Qed.

(** The board after an accepted click on an empty cell of the array. *)
Lemma onClick_on_null s index :
  cell (board s) index = null ->
  board (onClick s index) = <[index := currentPlayer s]> (board s) ->
  is_mark (currentPlayer s) ->
  length (availableMoves (board (onClick s index))) + 1 =
  length (availableMoves (board s)).
Proof.
  intros Hnull Hb Hm. rewrite Hb, !availableMoves_length.
  apply filter_null_insert.
  - unfold cell in Hnull. destruct (board s !! index) as [c|]; [|done].
    simpl in Hnull. by subst.
  - destruct Hm as [-> | ->]; discriminate.
Qed.

(** X15: a game ends within nine moves.  On a nine-cell board, with clicks
    on the nine buttons, each accepted click takes one cell out of the
    legal moves; a run of accepted clicks none of which ends the game has at
    most eight clicks, and as many legal moves are left as were not
    played. *)
Theorem game_is_bounded s indices :
  board9 (board s) -> is_mark (currentPlayer s) ->
  Forall (fun index => index < 9) indices ->
  quiet s indices ->
  length indices
  + length (availableMoves (board (foldl onClick s indices)))
  = length (availableMoves (board s)) /\
  length indices <= 8.
Proof.
  intros Hb9 Hm Hin Hq.
  assert (Hcount : length indices
    + length (availableMoves (board (foldl onClick s indices)))
    = length (availableMoves (board s)) /\
    (indices <> [] ->
     availableMoves (board (foldl onClick s indices)) <> [])).
  { revert s Hb9 Hm Hq.
    induction Hin as [|index rest Hlt _ IH]; intros s Hb9 Hm Hq; [done|].
    destruct Hq as (Hacc & Hgo & Hq). cbn [foldl length].
    pose proof (onClick_accepted s index Hacc) as Heq. simpl in Heq.
    assert (Hnull : cell (board s) index = null).
    { destruct (decide (cell (board s) index = null)) as [|Hne]; [done|].
      apply (cell_not_null _ _ Hb9 Hlt) in Hne.
      destruct Hacc. apply makeMove_None. by left. }
    assert (Hboard : board (onClick s index) =
                     <[index := currentPlayer s]> (board s)).
    { rewrite Heq. simpl. unfold assign. destruct Hb9 as [Hlen _].
      by rewrite decide_True by lia. }
    assert (Hb9' : board9 (board (onClick s index))).
    { rewrite Heq. simpl. apply board9_assign; [done|done|].
      destruct Hm as [-> | ->]; discriminate. }
    assert (Hm' : is_mark (currentPlayer (onClick s index))).
    { rewrite Heq. simpl. destruct (truthyW _); [done|].
      unfold is_mark. case_bool_decide; auto. }
    destruct (IH _ Hb9' Hm' Hq) as [Hsum Hleft].
    pose proof (onClick_on_null s index Hnull Hboard Hm) as Hone.
    split; [lia|]. intros _.
    destruct rest as [|index' rest']; [|by apply Hleft].
    simpl. apply checkWinner_going.
    rewrite Heq in Hgo |- *. simpl in *. rewrite Hgo.
    unfold terminal. intuition discriminate. }
  destruct Hcount as [Hsum Hleft]. split; [exact Hsum|].
  assert (Hle : length (availableMoves (board s)) <= 9).
  { rewrite availableMoves_length. destruct Hb9 as [<- _].
    apply length_filter. }
  destruct indices as [|index rest]; [simpl; lia|].
  assert (Hpos : availableMoves (board (foldl onClick s (index :: rest)))
                 <> []) by by apply Hleft.
  destruct (availableMoves (board (foldl onClick s (index :: rest))));
    [done|]. simpl in *. lia.
Qed.

Lemma game_is_bounded_witness :
  board9 (board initialState) /\ is_mark (currentPlayer initialState) /\
  Forall (fun index => index < 9) [0; 4; 1] /\
  quiet initialState [0; 4; 1] /\
  length [0; 4; 1]
  + length (availableMoves (board (foldl onClick initialState [0; 4; 1])))
  = length (availableMoves (board initialState)).
Proof.
  assert (Hb9 : board9 (board initialState)) by board9_by_computation.
  assert (Hm : is_mark (currentPlayer initialState)) by (by left).
  assert (Hin : Forall (fun index => index < 9) [0; 4; 1])
    by (repeat constructor).
  assert (Hq : quiet initialState [0; 4; 1])
    by (cbv; repeat split; (discriminate || reflexivity)).
  split; [exact Hb9|]. split; [exact Hm|]. split; [exact Hin|].
  split; [exact Hq|].
  exact (proj1 (game_is_bounded initialState [0; 4; 1] Hb9 Hm Hin Hq)).
Defined.

(** ** Further properties: Reset Scores and the presentation helpers *)

(** X16: Reset Scores zeroes the three counters and changes nothing else:
    board, turn, recorded outcome, mode and the waiting callbacks stay.
    Pressing it twice is pressing it once, it commutes with New Game, and a
    switch to two players followed by it brings any state back to the
    initial one. *)
Theorem resetScores_frame w :
  let w' := step w ResetScores in
  scores (current w') = mkScores 0 0 0 /\
  board (current w') = board (current w) /\
  currentPlayer (current w') = currentPlayer (current w) /\
  winner (current w') = winner (current w) /\
  gameMode (current w') = gameMode (current w) /\
  timeouts w' = timeouts w /\
  step w' ResetScores = w' /\
  current (step (step w NewGame) ResetScores) =
    current (step (step w ResetScores) NewGame) /\
  current (step (step w (SwitchMode pvp)) ResetScores) = initialState.
Proof.
  simpl. unfold render. simpl.
  rewrite !bool_decide_eq_true_2 by done. rewrite !app_nil_r.
  by repeat split.
Qed.

Lemma string_app_length (base a : string) :
  String.length (base +:+ a) = String.length base + String.length a.
Proof.
  induction base as [|ch base IH]; [done|].
  change (String ch base +:+ a) with (String ch (base +:+ a)).
  simpl. by rewrite IH.
Qed.

Lemma suffix_differs (base a b : string) :
  String.length a <> String.length b -> base +:+ a <> base +:+ b.
Proof.
  intros Hlen Heq. apply (f_equal String.length) in Heq.
  rewrite !string_app_length in Heq. lia.
Qed.

Lemma base_differs (a : string) :
  String.length a <> 0 -> baseStyle +:+ a <> baseStyle.
Proof.
  intros Hlen Heq. apply (f_equal String.length) in Heq.
  rewrite string_app_length in Heq. lia.
Qed.

(** X17: the labels of [getPlayerName].  A value gets the empty label
    exactly when it is not a mark; in either mode X and O get different
    labels; against the opponent they are Player and AI; and in every
    reachable state the player whose turn it is has a non-empty label. *)
Theorem getPlayerName_labels g :
  (forall p, getPlayerName g p = EmptyString <-> ~ is_mark p) /\
  getPlayerName g X <> getPlayerName g O /\
  (gameMode g = ai ->
     getPlayerName g X = "Player" /\ getPlayerName g O = "AI") /\
  (gameMode g = pvp ->
     getPlayerName g X = "Player X" /\ getPlayerName g O = "Player O") /\
  (forall w, reachable w ->
     getPlayerName (current w) (currentPlayer (current w)) <> EmptyString).
Proof.
  assert (Hempty : forall s p,
            getPlayerName s p = EmptyString <-> ~ is_mark p).
  { intros s p. unfold getPlayerName, is_mark.
    destruct p, (gameMode s); simpl; split; try done;
      try (intros Hn; destruct Hn; auto; fail);
      intros _ [? | ?]; discriminate. }
  split; [apply Hempty|]. split; [|split; [|split]].
  - unfold getPlayerName. destruct (gameMode g); simpl; discriminate.
  - intros Hmode. unfold getPlayerName. by rewrite Hmode.
  - intros Hmode. unfold getPlayerName. by rewrite Hmode.
  - intros w Hr Hlabel. apply Hempty in Hlabel. apply Hlabel.
    by destruct (reachable_sound w Hr) as [(_ & Hm & _) _].
Qed.

(** X18: the look of a cell agrees with what a click on it does.  The
    button is disabled exactly when [makeMove] would return at its guard;
    the cell has the plain style exactly when a click on it is accepted;
    and it has the greyed style exactly when it carries no mark and the
    game is over. *)
Theorem style_agrees_with_guard s index :
  (disabled s index = true <-> makeMove s index = None) /\
  (getCellStyle s index = baseStyle <-> makeMove s index <> None) /\
  (getCellStyle s index = baseStyle +:+ " cursor-not-allowed opacity-50" <->
     ~ is_mark (cell (board s) index) /\ terminal (winner s)).
Proof.
  split.
  { unfold disabled.
    by rewrite makeMove_None, orb_true_iff, truthy_is_mark, truthyW_terminal. }
  assert (Hcases :
    (is_mark (cell (board s) index) /\
     (getCellStyle s index = baseStyle +:+ " text-blue-600 bg-blue-50" \/
      getCellStyle s index = baseStyle +:+ " text-red-600 bg-red-50")) \/
    (~ is_mark (cell (board s) index) /\ terminal (winner s) /\
     getCellStyle s index = baseStyle +:+ " cursor-not-allowed opacity-50") \/
    (~ is_mark (cell (board s) index) /\ ~ terminal (winner s) /\
     getCellStyle s index = baseStyle)).
  { unfold getCellStyle. rewrite <- truthyW_terminal.
    case_bool_decide as HX; [left; rewrite HX; split; [by left|by left]|].
    case_bool_decide as HO; [left; rewrite HO; split; [by right|by right]|].
    right. assert (Hn : ~ is_mark (cell (board s) index))
      by (intros [? | ?]; done).
    destruct (truthyW (winner s)); [left|right]; by split_and!. }
  assert (Hgrey : baseStyle +:+ " cursor-not-allowed opacity-50" <> baseStyle)
    by (apply base_differs; discriminate).
  rewrite makeMove_None.
  destruct Hcases as [(Hm & [-> | ->]) | [(Hm & Ht & ->) | (Hm & Ht & ->)]].
  - assert (baseStyle +:+ " text-blue-600 bg-blue-50" <> baseStyle)
      by (apply base_differs; discriminate).
    assert (baseStyle +:+ " text-blue-600 bg-blue-50" <>
            baseStyle +:+ " cursor-not-allowed opacity-50")
      by (apply suffix_differs; discriminate).
    tauto.
  - assert (baseStyle +:+ " text-red-600 bg-red-50" <> baseStyle)
      by (apply base_differs; discriminate).
    assert (baseStyle +:+ " text-red-600 bg-red-50" <>
            baseStyle +:+ " cursor-not-allowed opacity-50")
      by (apply suffix_differs; discriminate).
    tauto.
  - tauto.
  - assert (baseStyle <> baseStyle +:+ " cursor-not-allowed opacity-50")
      by (intros Heq; by apply Hgrey).
    tauto.
Qed.

(** ** Further properties: the balance of the marks *)

Lemma filter_insert_count (P : Player -> Prop) `{!forall x, Decision (P x)}
  (l : Board) i c v :
  l !! i = Some c ->
  length (filter P (<[i := v]> l)) + (if decide (P c) then 1 else 0) =
  length (filter P l) + (if decide (P v) then 1 else 0).
Proof.
  revert i. induction l as [|d rest IH]; intros i Hl; [discriminate|].
  destruct i as [|i]; simpl in *.
  - injection Hl as ->. rewrite !filter_cons.
    repeat case_decide; simpl; lia.
  - rewrite !filter_cons. specialize (IH i Hl).
    repeat case_decide; simpl in *; lia.
Qed.

(** Writing [v] on a cell that carries no mark adds one to the count of
    [v] and leaves the count of the other mark as it is. *)
Lemma countMark_assign board index v m :
  ~ is_mark (cell board index) -> is_mark m ->
  countMark m (assign board index v) =
  countMark m board + (if decide (v = m) then 1 else 0).
Proof.
  intros Hfree Hm. unfold countMark, assign. case_decide as Hlt.
  - destruct (lookup_lt_is_Some_2 board index Hlt) as [c Hc].
    pose proof (filter_insert_count (fun c => c = m) board index c v Hc) as Hf.
    simpl in Hf. unfold cell in Hfree. rewrite Hc in Hfree. simpl in Hfree.
    rewrite (decide_False (P := c = m)) in Hf by (intros ->; done). lia.
  - rewrite !filter_app, !length_app.
    assert (Hrep : forall n,
      filter (fun c => c = m) (replicate n undefined) = []).
    { induction n as [|n IH]; [done|]. simpl. rewrite filter_cons.
      rewrite decide_False; [done|]. destruct Hm as [-> | ->]; discriminate. }
    rewrite Hrep. rewrite filter_cons. simpl.
    case_decide; simpl; lia.
Qed.

Lemma balanced_updater g prev index upd :
  balanced g /\ is_mark (currentPlayer g) ->
  makeMove g index = Some upd ->
  balanced (upd prev) /\ is_mark (currentPlayer g).
Proof.
  intros [[_ Hturn] Hm] Hmove. split; [|done].
  destruct (makeMove_Some_guard _ _ _ Hmove) as [Hfree Hgo].
  specialize (Hturn Hgo).
  rewrite (makeMove_updater _ _ _ Hmove). unfold balanced. simpl.
  rewrite !(countMark_assign _ _ _ _ Hfree) by (by (left + right)).
  destruct Hturn as [[HX Heq] | [HO Heq]].
  - rewrite HX. rewrite decide_True by done. rewrite decide_False by done.
    split; [lia|]. intros Hgo'. apply (not_iff_compat (truthyW_terminal _)) in Hgo'.
    apply not_true_is_false in Hgo'. rewrite Hgo'.
    rewrite bool_decide_eq_true_2 by done. right. split; [done|lia].
  - rewrite HO. rewrite decide_False by done. rewrite decide_True by done.
    split; [lia|]. intros Hgo'. apply (not_iff_compat (truthyW_terminal _)) in Hgo'.
    apply not_true_is_false in Hgo'. rewrite Hgo'.
    rewrite bool_decide_eq_false_2 by done. left. split; [done|lia].
Qed.

Lemma balanced_fresh s :
  board s = emptyBoard -> currentPlayer s = X -> balanced s.
Proof.
  intros Hb HX. unfold balanced. rewrite Hb, HX. simpl.
  split; [by left|]. intros _. by left.
Qed.

(** X19: in every reachable state, stale callbacks included, X has as many
    marks on the board as O or exactly one more; and while the game goes
    on it is X's turn when the counts are equal and O's turn when X has one
    more. *)
Theorem marks_are_balanced w :
  reachable w ->
  let s := current w in
  let nX := countMark X (board s) in
  let nO := countMark O (board s) in
  (nX = nO \/ nX = nO + 1) /\
  (~ terminal (winner s) ->
     (currentPlayer s = X <-> nX = nO) /\
     (currentPlayer s = O <-> nX = nO + 1)).
Proof.
  intros [events ->]%reachable_run. simpl.
  destruct (run_invariant (fun s => balanced s /\ is_mark (currentPlayer s))
              (fun _ => True)) with (events := events) as [[Hb Hm] _].
  - split; [by apply balanced_fresh|by left].
  - intros s _. split; [by apply balanced_fresh|by left].
  - intros s [[Hcount Hturn] Hm]. by split.
  - intros mode s _ _. split; [by apply balanced_fresh|by left].
  - intros g prev index upd Hg [_ Hprev] _ Hmove.
    destruct (balanced_updater g prev index upd Hg Hmove) as [Hb _].
    split; [exact Hb|].
    rewrite (makeMove_updater _ _ _ Hmove). simpl.
    destruct (truthyW _); [done|]. unfold is_mark. case_bool_decide; auto.
  - by apply Forall_forall.
  - destruct Hb as [Hcount Hturn]. split; [exact Hcount|].
    intros Hgo. destruct (Hturn Hgo) as [[HX Heq] | [HO Heq]].
    + rewrite HX. split; [done|]. split; [discriminate|lia].
    + rewrite HO. split; [|done]. split; [discriminate|lia].
Qed.

Lemma marks_are_balanced_witness :
  reachable (run initialWorld replySession) /\
  (countMark X (board (current (run initialWorld replySession))) =
   countMark O (board (current (run initialWorld replySession))) \/
   countMark X (board (current (run initialWorld replySession))) =
   countMark O (board (current (run initialWorld replySession))) + 1).
Proof.
  assert (Hr : reachable (run initialWorld replySession))
    by apply run_is_reachable.
  split; [exact Hr|]. exact (proj1 (marks_are_balanced _ Hr)).
Defined.
